(** * DiffBIR: the ControlLDM facade ([diffbir/model/cldm.py])

    A shallow embedding of the checkpoint adapter ([load_pretrained_sd]),
    the ControlNet bootstrapper ([load_controlnet_from_unet]), the mode
    pinning hook ([disabled_train]) and the latent scaling at the VAE
    boundary ([vae_encode], [vae_decode]).

    Tensors live in a store: a tensor object is a reference to a storage
    cell together with its shape, and the store maps storage cells to their
    row-major contents.  [clone], [torch.zeros] and [torch.cat] allocate new
    cells, [load_state_dict] writes into the cells a module already owns.
    Python exceptions are values of [error]. *)

From Stdlib Require Import ZArith Floats.SpecFloat.
From stdpp Require Import base gmap sets list strings fin_maps.

Set Default Proof Using "Type".
#[export] Set Warnings "-clear-no-such-hyp,-level-tolerance".
Open Scope string_scope.

(** ** Exceptions *)

Inductive error : Set :=
  | IndexError     (* [size(d)] with [d] out of range *)
  | ValueError     (* unpacking a size of the wrong length *)
  | TypeError      (* call with the wrong number of arguments *)
  | RuntimeError.  (* raised by torch *)

Inductive result (X : Type) : Type :=
  | Ok (x : X)
  | Raise (e : error).
Arguments Ok {X} x.
Arguments Raise {X} e.

#[global] Instance result_ret : MRet result := λ X x, Ok x.
#[global] Instance result_bind : MBind result := λ X Y f r,
  match r with Ok x => f x | Raise e => Raise e end.

#[global] Instance result_fmap : FMap result := λ X Y f r,
  match r with Ok x => Ok (f x) | Raise e => Raise e end.

Definition is_ok {X} (r : result X) : bool :=
  match r with Ok _ => true | Raise _ => false end.

(** ** Element arithmetic

    All tensors of one model share one element type (the spec fixes the
    floating-point width).  The code only needs the zero of that type and
    multiplication and division by the latent scale. *)

Class Scalar (A : Type) := {
  s_zero : A;
  s_mul : A → A → A;
  s_div : A → A → A
}.

(** ** Tensor values *)

Record tval (A : Type) := TVal { shape : list nat; data : list A }.
Arguments TVal {A} shape data.
Arguments shape {A} t.
Arguments data {A} t.

Definition numel (sh : list nat) : nat := foldr Nat.mul 1 sh.

Definition tval_wf {A} (t : tval A) : Prop := length (data t) = numel (shape t).

(** Row-major offset of a multi-index; [None] when out of range. *)
Fixpoint flat_index (sh idx : list nat) : option nat :=
  match sh, idx with
  | [], [] => Some 0
  | n :: sh', i :: idx' =>
      if decide (i < n) then (λ r, i * numel sh' + r) <$> flat_index sh' idx'
      else None
  | _, _ => None
  end.

Definition tget {A} (t : tval A) (idx : list nat) : option A :=
  flat_index (shape t) idx ≫= λ i, data t !! i.

(** [t.size(d)] for a non-negative [d]. *)
Definition size_dim (sh : list nat) (d : nat) : result nat :=
  match sh !! d with Some n => Ok n | None => Raise IndexError end.

(** [a, b, c, d = t.size()] *)
Definition unpack4 (sh : list nat) : result (nat * nat * nat * nat) :=
  match sh with
  | [a; b; c; d] => Ok (a, b, c, d)
  | _ => Raise ValueError
  end.

(** [torch.zeros(sizes)]: a negative size is a [RuntimeError]. *)
Definition zeros {A} `{Scalar A} (sizes : list Z) : result (tval A) :=
  if decide (Forall (λ z, 0 ≤ z)%Z sizes) then
    let sh := Z.to_nat <$> sizes in
    Ok (TVal sh (replicate (numel sh) s_zero))
  else Raise RuntimeError.

(** Data of a concatenation: [outer] blocks, each made of [ca] elements of
    the first operand followed by [cb] elements of the second. *)
Fixpoint interleave {A} (outer ca cb : nat) (da db : list A) : list A :=
  match outer with
  | 0 => []
  | S n => take ca da ++ take cb db ++ interleave n ca cb (drop ca da) (drop cb db)
  end.

(** Shapes that [torch.cat] accepts along [dim]: same rank, [dim] in range,
    and equal sizes everywhere but at [dim]. *)
Definition cat_compatible (sa sb : list nat) (dim : nat) : Prop :=
  length sa = length sb ∧ dim < length sa ∧
  take dim sa = take dim sb ∧ drop (S dim) sa = drop (S dim) sb.

#[global] Instance cat_compatible_dec sa sb dim : Decision (cat_compatible sa sb dim).
Proof. unfold cat_compatible. apply _. Defined.

(** [torch.cat((a, b), dim)].  A 1-D empty operand (shape [(0,)]) is
    skipped, as torch documents, and [dim] must then be a dimension of the
    other operand; otherwise the shapes must be compatible. *)
Definition cat {A} (a b : tval A) (dim : nat) : result (tval A) :=
  if decide (shape a = [0]) then
    if decide (dim < length (shape b)) then Ok b else Raise IndexError
  else if decide (shape b = [0]) then
    if decide (dim < length (shape a)) then Ok a else Raise IndexError
  else if decide (cat_compatible (shape a) (shape b) dim) then
    let na := default 0 (shape a !! dim) in
    let nb := default 0 (shape b !! dim) in
    let inner := numel (drop (S dim) (shape a)) in
    Ok (TVal (<[dim := na + nb]> (shape a))
             (interleave (numel (take dim (shape a))) (na * inner) (nb * inner)
                         (data a) (data b)))
  else Raise RuntimeError.

(** Elementwise [t * s] and [t / s] with a Python scalar [s]. *)
Definition tmul {A} `{Scalar A} (t : tval A) (s : A) : tval A :=
  TVal (shape t) ((λ v, s_mul v s) <$> data t).
Definition tdiv {A} `{Scalar A} (t : tval A) (s : A) : tval A :=
  TVal (shape t) ((λ v, s_div v s) <$> data t).

(** ** The tensor store *)

Definition loc := positive.

(** A tensor object: its storage cell and its shape.  Two tensors alias
    when they have the same cell. *)
Record tensor := Tensor { t_loc : loc; t_shape : list nat }.
Arguments Tensor t_loc%_positive t_shape.

#[global] Instance tensor_eq_dec : EqDecision tensor.
Proof. solve_decision. Defined.

Abbreviation store A := (gmap loc (list A)).

(** State-and-exception computations over a state [S]. *)
Definition st (S X : Type) : Type := S → S * result X.

#[global] Instance st_ret {S} : MRet (st S) := λ X x h, (h, Ok x).
#[global] Instance st_bind {S} : MBind (st S) := λ X Y f c h,
  match c h with
  | (h', Ok x) => f x h'
  | (h', Raise e) => (h', Raise e)
  end.

Definition lift {S X} (r : result X) : st S X := λ h, (h, r).

Definition read {A} (h : store A) (l : loc) : list A := default [] (h !! l).

Definition deref {A} (h : store A) (t : tensor) : tval A :=
  TVal (t_shape t) (read h (t_loc t)).

Definition alloc {A} (h : store A) (d : list A) : store A * loc :=
  let l := fresh (dom h) in (<[l := d]> h, l).

Definition new_tensor {A} (v : tval A) (h : store A) : store A * tensor :=
  let '(h', l) := alloc h (data v) in (h', Tensor l (shape v)).

Definition returning {S X} (f : S → S * X) : st S X := λ h,
  let '(h', x) := f h in (h', Ok x).

(** [t.clone()] *)
Definition clone {A} (t : tensor) (h : store A) : store A * tensor :=
  new_tensor (deref h t) h.

(** [torch.zeros(sizes, dtype=...)] *)
Definition torch_zeros {A} `{Scalar A} (sizes : list Z) : st (store A) tensor :=
  v ← lift (zeros sizes); returning (new_tensor v).

(** [torch.cat((a, b), dim=dim)] *)
Definition torch_cat {A} (a b : tensor) (dim : nat) : st (store A) tensor := λ h,
  (v ← lift (cat (deref h a) (deref h b) dim); returning (new_tensor v)) h.

(** [dst.copy_(src)] for tensors of one shape: overwrite the cell of [dst]. *)
Definition copy_ {A} (h : store A) (dst src : tensor) : store A :=
  <[t_loc dst := read h (t_loc src)]> h.

(** ** Modules *)

Inductive kind := KParam | KBuffer.

Record entry := Entry {
  e_tensor : tensor;
  e_kind : kind;
  e_requires_grad : bool
}.

(** What the attribute [train] of a module resolves to: the method of
    [nn.Module], or the function [disabled_train] stored on the instance. *)
Inductive train_attr := TrainDefault | TrainDisabled.

(** A module as torch exposes it: its state in [state_dict] order under
    fully qualified keys, its mode flag and its [train] attribute. *)
Record Module := {
  m_state : list (string * entry);
  m_training : bool;
  m_train : train_attr
}.

Definition state_dict (m : Module) : list (string * tensor) :=
  prod_map id e_tensor <$> m_state m.

(** Lookup in an ordered dictionary. *)
Fixpoint assoc {V} (k : string) (l : list (string * V)) : option V :=
  match l with
  | [] => None
  | (k', v) :: l' => if decide (k = k') then Some v else assoc k l'
  end.

(** *** [load_state_dict] *)

(** The copying pass: a key present with the parameter's shape is copied
    in place; a key present with another shape is reported and skipped. *)
Fixpoint load_params {A} (sd : list (string * tensor)) (init : gmap string tensor)
    (h : store A) : store A :=
  match sd with
  | [] => h
  | (k, p) :: sd' =>
      match init !! k with
      | Some inp =>
          if decide (t_shape inp = t_shape p)
          then load_params sd' init (copy_ h p inp)
          else load_params sd' init h
      | None => load_params sd' init h
      end
  end.

Definition missing_keys (sd : list (string * tensor)) (init : gmap string tensor)
    : list string :=
  filter (λ k, init !! k = None) sd.*1.

Definition unexpected_keys (sd : list (string * tensor)) (init : gmap string tensor)
    : list string :=
  filter (λ k, k ∉ sd.*1) (elements (dom init)).

(** A key present in [init] with a shape other than the parameter's. *)
Definition mismatched (init : gmap string tensor) (kp : string * tensor) : Prop :=
  match init !! kp.1 with
  | Some inp => t_shape inp ≠ t_shape kp.2
  | None => False
  end.

#[global] Instance mismatched_dec init kp : Decision (mismatched init kp).
Proof. unfold mismatched. destruct (init !! kp.1); apply _. Defined.

Definition size_mismatches (sd : list (string * tensor)) (init : gmap string tensor)
    : list string :=
  (filter (mismatched init) sd).*1.

(** [module.load_state_dict(init, strict=strict)]: every copy that can be
    done is done, then the [RuntimeError] is raised if a size mismatch was
    seen, or, under [strict], if a key is missing or unexpected. *)
Definition load_state_dict {A} (m : Module) (init : gmap string tensor)
    (strict : bool) : st (store A) (list string * list string) := λ h,
  let sd := state_dict m in
  let h' := load_params sd init h in
  let missing := missing_keys sd init in
  let unexpected := unexpected_keys sd init in
  if decide ((strict = true ∧ (unexpected ≠ [] ∨ missing ≠ []))
             ∨ size_mismatches sd init ≠ [])
  then (h', Raise RuntimeError)
  else (h', Ok (missing, unexpected)).

(** *** Mode switching *)

(** [disabled_train(self)]: returns its argument, touches nothing. *)
Definition disabled_train {X} (self : X) : X := self.

(** [nn.Module.train(self, mode)] *)
Definition nn_train (m : Module) (mode : bool) : Module :=
  {| m_state := m_state m; m_training := mode; m_train := m_train m |}.

(** [module.train(...)]: attribute lookup, then the call.  The method of
    [nn.Module] takes an optional mode; the function stored by
    [module.train = disabled_train] is unbound and takes exactly one
    positional argument. *)
Definition call_train (m : Module) (args : list bool) : Module * result unit :=
  match m_train m with
  | TrainDefault =>
      match args with
      | [] => (nn_train m true, Ok ())
      | [mode] => (nn_train m mode, Ok ())
      | _ => (m, Raise TypeError)
      end
  | TrainDisabled =>
      match args with
      | [x] => let _ := disabled_train x in (m, Ok ())
      | _ => (m, Raise TypeError)
      end
  end.

(** [module.eval()] is [self.train(False)]. *)
Definition eval (m : Module) : Module := (call_train m [false]).1.

(** [for p in module.parameters(): p.requires_grad = False] *)
Definition disable_grad (m : Module) : Module :=
  {| m_state := prod_map id (λ e, match e_kind e with
                                   | KParam => Entry (e_tensor e) KParam false
                                   | KBuffer => e
                                   end) <$> m_state m;
     m_training := m_training m;
     m_train := m_train m |}.

Definition set_train_attr (m : Module) (a : train_attr) : Module :=
  {| m_state := m_state m; m_training := m_training m; m_train := a |}.

(** The body of the freezing loop (lines 58-61). *)
Definition freeze (m : Module) : Module :=
  disable_grad (set_train_attr (eval m) TrainDisabled).

(** ** The facade *)

(** [ControlLDM]: the four sub-networks and the latent scale.  (The
    control scales only matter to [forward], which is not modelled.) *)
Record ControlLDM (A : Type) := {
  unet : Module;
  vae : Module;
  clip : Module;
  controlnet : Module;
  scale_factor : A;
  training : bool
}.
Arguments unet {A} c.
Arguments vae {A} c.
Arguments clip {A} c.
Arguments controlnet {A} c.
Arguments scale_factor {A} c.
Arguments training {A} c.

(** The names in [modules] and [module_map]. *)
Inductive role := Unet | Vae | Clip.

#[global] Instance role_eq_dec : EqDecision role.
Proof. solve_decision. Defined.

Definition module_map (name : role) : string :=
  match name with
  | Unet => "model.diffusion_model"
  | Vae => "first_stage_model"
  | Clip => "cond_stage_model"
  end.

Definition get_module {A} (self : ControlLDM A) (name : role) : Module :=
  match name with Unet => unet self | Vae => vae self | Clip => clip self end.

Definition set_module {A} (self : ControlLDM A) (name : role) (m : Module)
    : ControlLDM A :=
  {| unet := if decide (name = Unet) then m else unet self;
     vae := if decide (name = Vae) then m else vae self;
     clip := if decide (name = Clip) then m else clip self;
     controlnet := controlnet self;
     scale_factor := scale_factor self;
     training := training self |}.

(** [".".join([prefix, key])] *)
Definition target_key (prefix key : string) : string := prefix +:+ "." +:+ key.

(** *** [load_pretrained_sd] *)

(** The loop over [scratch_sd] (lines 46-52). *)
Fixpoint collect_init {A} (prefix : string) (sd : gmap string tensor)
    (scratch_sd : list (string * tensor))
    (init_sd : gmap string tensor) (used missing : gset string) (h : store A)
    : store A * (gmap string tensor * gset string * gset string) :=
  match scratch_sd with
  | [] => (h, (init_sd, used, missing))
  | (key, _) :: rest =>
      let tk := target_key prefix key in
      match sd !! tk with
      | None => collect_init prefix sd rest init_sd used ({[tk]} ∪ missing) h
      | Some t =>
          let '(h1, c) := clone t h in
          collect_init prefix sd rest (<[key := c]> init_sd) ({[tk]} ∪ used) missing h1
      end
  end.

(** The loop over [modules] (lines 43-53). *)
Fixpoint load_modules {A} (self : ControlLDM A) (modules : list role)
    (sd : gmap string tensor) (used missing : gset string)
    : st (store A) (gset string * gset string) := λ h,
  match modules with
  | [] => (h, Ok (used, missing))
  | name :: rest =>
      let module := get_module self name in
      let '(h1, (init_sd, used1, missing1)) :=
        collect_init (module_map name) sd (state_dict module) ∅ used missing h in
      match load_state_dict module init_sd false h1 with
      | (h2, Ok _) => load_modules self rest sd used1 missing1 h2
      | (h2, Raise e) => (h2, Raise e)
      end
  end.

(** The freezing loop (lines 57-61). *)
Definition freeze_modules {A} (self : ControlLDM A) (names : list role)
    : ControlLDM A :=
  foldl (λ s name, set_module s name (freeze (get_module s name))) self names.

(** [load_pretrained_sd(self, sd)]: the new store, the facade (unchanged
    when an exception escapes) and the pair [(unused, missing)]. *)
Definition load_pretrained_sd {A} (self : ControlLDM A) (sd : gmap string tensor)
    (h : store A) : store A * ControlLDM A * result (gset string * gset string) :=
  match load_modules self [Unet; Vae; Clip] sd ∅ ∅ h with
  | (h', Ok (used, missing)) =>
      let unused := dom sd ∖ used in
      (h', freeze_modules self [Vae; Clip; Unet], Ok (unused, missing))
  | (h', Raise e) => (h', self, Raise e)
  end.

(** The set [used] when the loop over [modules] is left. *)
Definition consumed_keys {A} (self : ControlLDM A) (sd : gmap string tensor)
    (h : store A) : result (gset string) :=
  fst <$> (load_modules self [Unet; Vae; Clip] sd ∅ ∅ h).2.

(** *** [load_controlnet_from_ckpt] *)

Definition load_controlnet_from_ckpt {A} (self : ControlLDM A)
    (sd : gmap string tensor) : st (store A) unit :=
  _ ← load_state_dict (controlnet self) sd true; mret ().

(** *** [load_controlnet_from_unet] *)

(** Lines 81-84: the zero padding of [target] up to the shape of [this]. *)
Definition pad_with_zeros {A} `{Scalar A} (this target : tensor) : st (store A) tensor :=
  a ← lift (size_dim (t_shape this) 1);
  b ← lift (size_dim (t_shape target) 1);
  let d_ic := (Z.of_nat a - Z.of_nat b)%Z in
  '(oc, _, hh, w) ← lift (unpack4 (t_shape this));
  zs ← torch_zeros [Z.of_nat oc; d_ic; Z.of_nat hh; Z.of_nat w];
  torch_cat target zs 1.

(** The loop over [scratch_sd] (lines 75-88). *)
Fixpoint init_from_unet {A} `{Scalar A} (unet_sd scratch_sd : list (string * tensor))
    (init_sd : gmap string tensor) (init_with_new_zero init_with_scratch : gset string)
    : st (store A) (gmap string tensor * gset string * gset string) := λ h,
  match scratch_sd with
  | [] => (h, Ok (init_sd, init_with_new_zero, init_with_scratch))
  | (key, this) :: rest =>
      match assoc key unet_sd with
      | Some target =>
          if decide (t_shape this = t_shape target) then
            let '(h1, c) := clone target h in
            init_from_unet unet_sd rest (<[key := c]> init_sd)
              init_with_new_zero init_with_scratch h1
          else
            match pad_with_zeros this target h with
            | (h1, Ok c) =>
                init_from_unet unet_sd rest (<[key := c]> init_sd)
                  ({[key]} ∪ init_with_new_zero) init_with_scratch h1
            | (h1, Raise e) => (h1, Raise e)
            end
      | None =>
          let '(h1, c) := clone this h in
          init_from_unet unet_sd rest (<[key := c]> init_sd)
            init_with_new_zero ({[key]} ∪ init_with_scratch) h1
      end
  end.

Definition load_controlnet_from_unet {A} `{Scalar A} (self : ControlLDM A)
    : st (store A) (gset string * gset string) :=
  '(init_sd, init_with_new_zero, init_with_scratch) ←
    init_from_unet (state_dict (unet self)) (state_dict (controlnet self)) ∅ ∅ ∅;
  _ ← load_state_dict (controlnet self) init_sd true;
  mret (init_with_new_zero, init_with_scratch).

(** *** Mode switching on the facade *)

(** [ControlLDM.train(mode)], inherited from [nn.Module]: set the flag,
    then call [train(mode)] on every child. *)
Definition cldm_train {A} (self : ControlLDM A) (mode : bool) : ControlLDM A :=
  {| unet := (call_train (unet self) [mode]).1;
     vae := (call_train (vae self) [mode]).1;
     clip := (call_train (clip self) [mode]).1;
     controlnet := (call_train (controlnet self) [mode]).1;
     scale_factor := scale_factor self;
     training := mode |}.

(** A later call of a mode switch: on the facade, or on one of the three
    adapted sub-networks with any positional arguments. *)
Inductive mode_call :=
  | FacadeTrain (mode : bool)
  | FacadeEval
  | SubTrain (name : role) (args : list bool)
  | SubEval (name : role).

Definition run_call {A} (self : ControlLDM A) (c : mode_call) : ControlLDM A :=
  match c with
  | FacadeTrain mode => cldm_train self mode
  | FacadeEval => cldm_train self false
  | SubTrain name args => set_module self name (call_train (get_module self name) args).1
  | SubEval name => set_module self name (eval (get_module self name))
  end.

Definition run_calls {A} (self : ControlLDM A) (cs : list mode_call) : ControlLDM A :=
  foldl run_call self cs.

(** ** The VAE boundary *)

Inductive scale_type := Down | Up.

(** A network function: a tensor in, a tensor out, over the runtime
    state [G] of the networks (the random generator that [sample] draws
    from); it may raise. *)
Definition net_fn (A G : Type) : Type := tval A → st G (tval A).

(** [self.vae]: [encode(x).sample()], [encode(x).mode()] and [decode]. *)
Record AutoencoderKL (A G : Type) := {
  encode_sample : net_fn A G;
  encode_mode : net_fn A G;
  decode : net_fn A G
}.
Arguments encode_sample {A G} a.
Arguments encode_mode {A G} a.
Arguments decode {A G} a.

Section VaeBoundary.
Context {A G : Type} `{Scalar A}.

(** [make_tiled_fn(fn, size, stride, scale_type, scale, channel)] of
    [utils/common.py], which is not part of the sources at hand: the
    wrapper is a parameter of the two operations that may call it. *)
Variable make_tiled_fn :
  net_fn A G → Z → Z → scale_type → Z → Z → net_fn A G.

Variable net : AutoencoderKL A G.

(** The local [model] of [vae_encode] (lines 100-114). *)
Definition encode_model (sample tiled : bool) (tile_size tile_stride : Z)
    : net_fn A G :=
  let vae_encode_fn := if sample then encode_sample net else encode_mode net in
  if tiled then make_tiled_fn vae_encode_fn tile_size tile_stride Down 8 4
  else vae_encode_fn.

Definition vae_encode (self : ControlLDM A) (image : tval A)
    (sample tiled : bool) (tile_size tile_stride : Z) : st G (tval A) :=
  raw ← encode_model sample tiled tile_size tile_stride image;
  mret (tmul raw (scale_factor self)).

(** The local [model] of [vae_decode] (lines 126-136). *)
Definition decode_model (tiled : bool) (tile_size tile_stride : Z) : net_fn A G :=
  if tiled then make_tiled_fn (decode net) tile_size tile_stride Up 8 3
  else decode net.

Definition vae_decode (self : ControlLDM A) (z : tval A)
    (tiled : bool) (tile_size tile_stride : Z) : st G (tval A) :=
  decode_model tiled tile_size tile_stride (tdiv z (scale_factor self)).
End VaeBoundary.

(** ** The forward pass *)

(** [cond]: the dictionary that [prepare_condition] builds, with its two
    keys. *)
Record condition (A : Type) := { c_txt : tval A; c_img : tval A }.
Arguments c_txt {A} c.
Arguments c_img {A} c.

(** [[c * scale for c, scale in zip(control, self.control_scales)]] *)
Definition scale_control {A} `{Scalar A} (control : list (tval A))
    (control_scales : list A) : list (tval A) :=
  zip_with tmul control control_scales.

Section Forward.
Context {A G : Type} `{Scalar A}.

(** [self.controlnet(x=, hint=, timesteps=, context=)] and
    [self.unet(x=, timesteps=, context=, control=, only_mid_control=)]:
    the two networks, over the runtime state [G]. *)
Variable run_controlnet : tval A → tval A → tval A → tval A → st G (list (tval A)).
Variable run_unet : tval A → tval A → tval A → list (tval A) → bool → st G (tval A).

(** [forward(self, x_noisy, t, cond)]; [control_scales] is the attribute
    [self.control_scales], which [__init__] sets to [[1.0] * 13]. *)
Definition forward (control_scales : list A) (x_noisy t : tval A)
    (cond : condition A) : st G (tval A) :=
  let c_txt := c_txt cond in
  let c_img := c_img cond in
  control ← run_controlnet x_noisy c_img t c_txt;
  let control := scale_control control control_scales in
  run_unet x_noisy t c_txt control false.
End Forward.

(** ** Well-formed stores *)

(** The cell of a tensor is allocated and holds as many elements as the
    shape says. *)
Definition tensor_ok {A} (h : store A) (t : tensor) : Prop :=
  match h !! t_loc t with
  | Some d => length d = numel (t_shape t)
  | None => False
  end.

(** The cells a module owns. *)
Definition owned (m : Module) : list loc := (λ kp, t_loc kp.2) <$> state_dict m.

(** A state dictionary has one entry per key, and every entry is backed by
    the store. *)
Definition module_ok {A} (h : store A) (m : Module) : Prop :=
  NoDup (state_dict m).*1 ∧ Forall (λ kp, tensor_ok h kp.2) (state_dict m).

Definition all_owned {A} (self : ControlLDM A) : list loc :=
  owned (unet self) ++ owned (vae self) ++ owned (clip self) ++ owned (controlnet self).

(** The four sub-networks own pairwise distinct cells (no tied weights). *)
Definition facade_wf {A} (h : store A) (self : ControlLDM A) : Prop :=
  NoDup (all_owned self) ∧
  module_ok h (unet self) ∧ module_ok h (vae self) ∧
  module_ok h (clip self) ∧ module_ok h (controlnet self).

(** A checkpoint read from storage: its tensors are backed by the store
    and share no cell with the model. *)
Definition checkpoint_wf {A} (h : store A) (self : ControlLDM A)
    (sd : gmap string tensor) : Prop :=
  ∀ k t, sd !! k = Some t → tensor_ok h t ∧ t_loc t ∉ all_owned self.

(** What the loop over [modules] needs of the store: per sub-network the
    conditions of [facade_wf], and a checkpoint that shares no cell with
    the sub-networks in [modules]. *)
Definition modules_wf {A} (h : store A) (self : ControlLDM A)
    (sd : gmap string tensor) (modules : list role) : Prop :=
  NoDup modules ∧
  (∀ name, name ∈ modules →
     NoDup (state_dict (get_module self name)).*1 ∧
     NoDup (owned (get_module self name)) ∧
     ∀ l, l ∈ owned (get_module self name) → l ∈ dom h) ∧
  (∀ n1 n2 l, n1 ∈ modules → n2 ∈ modules → n1 ≠ n2 →
     l ∈ owned (get_module self n1) → l ∉ owned (get_module self n2)) ∧
  (∀ k t, sd !! k = Some t →
     t_loc t ∈ dom h ∧ ∀ name, name ∈ modules → t_loc t ∉ owned (get_module self name)).

(** The shapes the zero padding can bridge: both of rank 4, equal outside
    dimension 1, and strictly more channels on the control branch. *)
Definition channel_only_delta (this target : list nat) : Prop :=
  length this = 4 ∧ length target = 4 ∧
  (∀ i, i ≠ 1 → this !! i = target !! i) ∧
  (∃ a b, this !! 1 = Some a ∧ target !! 1 = Some b ∧ b < a).

(** The three rules of the bootstrap, for the key [key] of the control
    branch whose tensor is [this]: [h] is the store before, [h'] the store
    after, and [c] the tensor that holds the value in [h']. *)
Inductive resolved {A} `{Scalar A} (h h' : store A)
    (unet_sd : list (string * tensor)) (key : string) (this c : tensor) : Prop :=
  | resolved_copy target :
      assoc key unet_sd = Some target →
      t_shape this = t_shape target →
      deref h' c = deref h target →
      resolved h h' unet_sd key this c
  | resolved_pad target oc n d hh w zs :
      assoc key unet_sd = Some target →
      t_shape this ≠ t_shape target →
      t_shape target = [oc; n; hh; w] →
      t_shape this = [oc; n + d; hh; w] →
      zeros [Z.of_nat oc; Z.of_nat d; Z.of_nat hh; Z.of_nat w] = Ok zs →
      cat (deref h target) zs 1 = Ok (deref h' c) →
      resolved h h' unet_sd key this c
  | resolved_fresh :
      assoc key unet_sd = None →
      deref h' c = deref h this →
      resolved h h' unet_sd key this c.

(** A sub-network whose [train] attribute was replaced is in evaluation
    mode: the code replaces the attribute right after [eval()] only. *)
Definition mode_consistent (m : Module) : Prop :=
  m_train m = TrainDisabled → m_training m = false.

(** Frozen: in evaluation mode, [train] replaced, no trainable parameter. *)
Definition frozen (m : Module) : Prop :=
  m_training m = false ∧ m_train m = TrainDisabled ∧
  ∀ k e, (k, e) ∈ m_state m → e_kind e = KParam → e_requires_grad e = false.

(** ** IEEE binary32 elements *)

Definition binary32 : Type := spec_float.

Definition b32_of_Z (z : Z) : binary32 :=
  match z with
  | Z0 => S754_zero false
  | Zpos p => binary_normalize 24 128 (Zpos p) 0 false
  | Zneg p => binary_normalize 24 128 (Zneg p) 0 true
  end.

#[global] Instance binary32_scalar : Scalar binary32 := {|
  s_zero := S754_zero false;
  s_mul := SFmul 24 128;
  s_div := SFdiv 24 128
|}.

(** ** A small model

    A denoiser with a bias and a convolution weight of two input
    channels; a control branch with the same bias, the convolution weight
    widened to three input channels, and a bias of its own; one-parameter
    stand-ins for the VAE and the text encoder.  Elements are binary32. *)

Definition ex_param (l : loc) (sh : list nat) : entry := Entry (Tensor l sh) KParam true.

Definition ex_unet : Module :=
  {| m_state := [("time.bias", ex_param 1%positive [2]); ("in.weight", ex_param 2%positive [1; 2; 1; 2])];
     m_training := true; m_train := TrainDefault |}.

Definition ex_controlnet : Module :=
  {| m_state := [("time.bias", ex_param 3%positive [2]);
                 ("in.weight", ex_param 4%positive [1; 3; 1; 2]);
                 ("hint.bias", ex_param 5%positive [1])];
     m_training := true; m_train := TrainDefault |}.

Definition ex_vae : Module :=
  {| m_state := [("enc.w", ex_param 6%positive [2])]; m_training := true; m_train := TrainDefault |}.

Definition ex_clip : Module :=
  {| m_state := [("tok.w", ex_param 7%positive [1])]; m_training := true; m_train := TrainDefault |}.

(** The scale of Stable Diffusion, 0.18215, rounded to binary32. *)
Definition ex_scale : binary32 := SFdiv 24 128 (b32_of_Z 18215) (b32_of_Z 100000).

Definition ex_self : ControlLDM binary32 :=
  {| unet := ex_unet; vae := ex_vae; clip := ex_clip; controlnet := ex_controlnet;
     scale_factor := ex_scale; training := true |}.

Definition ex_store : store binary32 :=
  list_to_map
    [(1%positive, b32_of_Z <$> [10; 11]%Z);
     (2%positive, b32_of_Z <$> [20; 21; 22; 23]%Z);
     (3%positive, b32_of_Z <$> [30; 31]%Z);
     (4%positive, b32_of_Z <$> [40; 41; 42; 43; 44; 45]%Z);
     (5%positive, b32_of_Z <$> [50]%Z);
     (6%positive, b32_of_Z <$> [60; 61]%Z);
     (7%positive, b32_of_Z <$> [70]%Z);
     (8%positive, b32_of_Z <$> [80; 81]%Z);
     (9%positive, b32_of_Z <$> [90; 91]%Z);
     (10%positive, b32_of_Z <$> [100]%Z)].

(** A checkpoint with the denoiser's bias, the VAE's weight and a key no
    sub-network declares. *)
Definition ex_sd : gmap string tensor :=
  list_to_map
    [("model.diffusion_model.time.bias", Tensor 8%positive [2]);
     ("first_stage_model.enc.w", Tensor 9%positive [2]);
     ("model_ema.decay", Tensor 10%positive [1])].

(** A control branch whose only key is declared by the denoiser with the
    same shape. *)
Definition ex_self_same : ControlLDM binary32 :=
  {| unet := ex_unet; vae := ex_vae; clip := ex_clip;
     controlnet := {| m_state := [("time.bias", ex_param 3%positive [2])];
                      m_training := true; m_train := TrainDefault |};
     scale_factor := ex_scale; training := true |}.

(** A control branch that declares fewer input channels than the
    denoiser. *)
Definition ex_self_narrow : ControlLDM binary32 :=
  {| unet := ex_unet; vae := ex_vae; clip := ex_clip;
     controlnet := {| m_state := [("time.bias", ex_param 3%positive [2]);
                                  ("in.weight", ex_param 8%positive [1; 1; 1; 2])];
                      m_training := true; m_train := TrainDefault |};
     scale_factor := ex_scale; training := true |}.

(** A checkpoint whose VAE weight has one element where the VAE declares
    two. *)
Definition ex_sd_bad : gmap string tensor :=
  list_to_map
    [("model.diffusion_model.time.bias", Tensor 8%positive [2]);
     ("first_stage_model.enc.w", Tensor 10%positive [1])].

(** A checkpoint for the control branch of [ex_self_same]. *)
Definition ex_sd_controlnet : gmap string tensor :=
  list_to_map [("time.bias", Tensor 9%positive [2])].

(** A VAE that hands its input through, for looking at the scaling alone. *)
Definition ex_net : AutoencoderKL binary32 unit :=
  {| encode_sample := λ x, mret x; encode_mode := λ x, mret x; decode := λ x, mret x |}.

Definition ex_make_tiled_fn (fn : net_fn binary32 unit) (tile_size tile_stride : Z)
    (ty : scale_type) (scale channel : Z) : net_fn binary32 unit := fn.

(** * Properties *)

Arguments new_tensor : simpl never.
Arguments clone : simpl never.
Arguments zeros : simpl never.
Arguments cat : simpl never.
Arguments deref : simpl never.
Arguments load_state_dict : simpl never.

(** ** Tensor values *)

Lemma interleave_lookup_l {A} outer ca cb (da db : list A) o j :
  o < outer → j < ca →
  length da = outer * ca → length db = outer * cb →
  interleave outer ca cb da db !! (o * (ca + cb) + j) = da !! (o * ca + j).
Proof.
  revert o da db. induction outer as [|n IH]; intros o da db Ho Hj Hda Hdb; [lia|].
  simpl. destruct o as [|o'].
  - simpl. rewrite lookup_app_l by (rewrite length_take; lia).
    by rewrite lookup_take_lt.
  - assert (length (take ca da) = ca) as La by (rewrite length_take; lia).
    assert (length (take cb db) = cb) as Lb by (rewrite length_take; lia).
    rewrite lookup_app_r by lia. rewrite lookup_app_r by lia.
    replace (S o' * (ca + cb) + j - length (take ca da) - length (take cb db))
      with (o' * (ca + cb) + j) by lia.
    rewrite IH; [|lia|done|rewrite length_drop; lia|rewrite length_drop; lia].
    rewrite lookup_drop. f_equal. lia.
Qed.

Lemma interleave_lookup_r {A} outer ca cb (da db : list A) o j :
  o < outer → j < cb →
  length da = outer * ca → length db = outer * cb →
  interleave outer ca cb da db !! (o * (ca + cb) + ca + j) = db !! (o * cb + j).
Proof.
  revert o da db. induction outer as [|n IH]; intros o da db Ho Hj Hda Hdb; [lia|].
  assert (length (take ca da) = ca) as La by (rewrite length_take; lia).
  assert (length (take cb db) = cb) as Lb by (rewrite length_take; lia).
  simpl. destruct o as [|o'].
  - simpl. rewrite lookup_app_r by lia. rewrite lookup_app_l by lia.
    rewrite lookup_take_lt by lia. f_equal. lia.
  - rewrite lookup_app_r by lia. rewrite lookup_app_r by lia.
    replace (S o' * (ca + cb) + ca + j - length (take ca da) - length (take cb db))
      with (o' * (ca + cb) + ca + j) by lia.
    rewrite IH; [|lia|done|rewrite length_drop; lia|rewrite length_drop; lia].
    rewrite lookup_drop. f_equal. lia.
Qed.

Lemma interleave_length {A} outer ca cb (da db : list A) :
  length da = outer * ca → length db = outer * cb →
  length (interleave outer ca cb da db) = outer * (ca + cb).
Proof.
  revert da db. induction outer as [|n IH]; intros da db Hda Hdb; [done|].
  simpl. rewrite !length_app, !length_take, IH by (rewrite length_drop; lia). lia.
Qed.

Lemma zeros_ok {A} `{Scalar A} (sizes : list Z) (zs : tval A) :
  zeros sizes = Ok zs →
  Forall (λ z, 0 ≤ z)%Z sizes ∧ shape zs = Z.to_nat <$> sizes ∧
  data zs = replicate (numel (shape zs)) s_zero.
Proof.
  unfold zeros. case_decide; [|done]. intros [= <-]. done.
Qed.

Lemma zeros_data {A} `{Scalar A} sizes (zs : tval A) x :
  zeros sizes = Ok zs → x ∈ data zs → x = s_zero.
Proof.
  intros (_ & _ & ->)%zeros_ok Hx. by apply elem_of_replicate in Hx as [-> _].
Qed.

(** Concatenating a rank-4 tensor with zeros along dimension 1: channel
    [c] of the result is channel [c] of the source below the source's
    channel count and zero from there on. *)
Lemma cat_zeros_channels {A} `{Scalar A} (src zs r : tval A) oc n d hh w :
  shape src = [oc; n; hh; w] → tval_wf src →
  zeros [Z.of_nat oc; Z.of_nat d; Z.of_nat hh; Z.of_nat w] = Ok zs →
  cat src zs 1 = Ok r →
  shape r = [oc; n + d; hh; w] ∧ tval_wf r ∧
  ∀ o c y x, o < oc → c < n + d → y < hh → x < w →
    tget r [o; c; y; x] =
      if decide (c < n) then tget src [o; c; y; x] else Some s_zero.
Proof.
  intros Hsrc Hwf (_ & Hzsh & Hzd)%zeros_ok Hcat.
  simpl in Hzsh. rewrite !Nat2Z.id in Hzsh.
  unfold tval_wf in Hwf. rewrite Hsrc in Hwf. simpl in Hwf.
  unfold cat in Hcat. rewrite Hsrc, Hzsh in Hcat.
  rewrite decide_False in Hcat by done. rewrite decide_False in Hcat by done.
  rewrite decide_True in Hcat by (unfold cat_compatible; simpl; repeat split; lia).
  simpl in Hcat. injection Hcat as <-.
  rewrite Hzsh in Hzd. simpl in Hzd.
  assert (length (data zs) = oc * (d * (hh * (w * 1)))) as Lz.
  { rewrite Hzd, length_replicate. lia. }
  split; [done|]. split.
  { unfold tval_wf. simpl. rewrite interleave_length; [|lia..]. lia. }
  intros o c y x Ho Hc Hy Hx. unfold tget. simpl. rewrite Hsrc. simpl.
  rewrite !decide_True by lia. simpl.
  assert (y * (w * 1) + (x * 1 + 0) < hh * (w * 1)) as Hin by nia.
  destruct (decide (c < n)) as [Hlt|Hge].
  - rewrite decide_True by lia. simpl.
    replace (o * ((n + d) * (hh * (w * 1))) + (c * (hh * (w * 1)) + (y * (w * 1) + (x * 1 + 0))))
      with (o * (n * (hh * (w * 1)) + d * (hh * (w * 1)))
            + (c * (hh * (w * 1)) + (y * (w * 1) + (x * 1 + 0)))) by lia.
    rewrite Nat.add_0_r. rewrite interleave_lookup_l; [|lia|nia|lia|lia].
    done.
  - assert (∃ c', c = n + c') as [c' ->] by (exists (c - n); lia).
    replace (o * ((n + d) * (hh * (w * 1)))
             + ((n + c') * (hh * (w * 1)) + (y * (w * 1) + (x * 1 + 0))))
      with (o * (n * (hh * (w * 1)) + d * (hh * (w * 1))) + n * (hh * (w * 1))
            + (c' * (hh * (w * 1)) + (y * (w * 1) + (x * 1 + 0)))) by lia.
    assert ((c' + 1) * (hh * (w * 1)) ≤ d * (hh * (w * 1)))%nat as Hle
      by (apply Nat.mul_le_mono_r; lia).
    assert ((o + 1) * (d * (hh * (w * 1))) ≤ oc * (d * (hh * (w * 1))))%nat as Hle'
      by (apply Nat.mul_le_mono_r; lia).
    rewrite Nat.add_0_r. rewrite interleave_lookup_r; [|lia|lia|lia|lia].
    rewrite Hzd. apply lookup_replicate_2. lia.
Qed.

(** ** The store *)

Lemma read_weaken {A} (h h' : store A) l :
  h ⊆ h' → l ∈ dom h → read h' l = read h l.
Proof.
  intros Hsub [d Hd]%elem_of_dom. unfold read.
  by rewrite (lookup_weaken _ _ _ _ Hd Hsub), Hd.
Qed.

Lemma deref_weaken {A} (h h' : store A) t :
  h ⊆ h' → t_loc t ∈ dom h → deref h' t = deref h t.
Proof. intros. unfold deref. by rewrite (read_weaken h h'). Qed.

Lemma tensor_ok_dom {A} (h : store A) t : tensor_ok h t → t_loc t ∈ dom h.
Proof.
  unfold tensor_ok. destruct (h !! t_loc t) eqn:E; [|done].
  intros _. apply elem_of_dom. eauto.
Qed.

Lemma tensor_ok_wf {A} (h : store A) t : tensor_ok h t → tval_wf (deref h t).
Proof.
  unfold tensor_ok, tval_wf, deref, read. simpl. by destruct (h !! t_loc t).
Qed.

Lemma new_tensor_spec {A} (v : tval A) h h' t :
  new_tensor v h = (h', t) →
  (t_loc t ∉ dom h) ∧ h ⊆ h' ∧ t_shape t = shape v ∧
  h' !! t_loc t = Some (data v) ∧ dom h' = {[t_loc t]} ∪ dom h.
Proof.
  unfold new_tensor, alloc. intros [= <- <-]. simpl.
  pose proof (is_fresh (dom h)) as Hf.
  split; [done|]. split; [|split; [done|split]].
  - apply insert_subseteq. by apply not_elem_of_dom.
  - apply lookup_insert_eq.
  - apply dom_insert_L.
Qed.

Lemma clone_spec {A} t (h h' : store A) c :
  clone t h = (h', c) →
  (t_loc c ∉ dom h) ∧ h ⊆ h' ∧ t_shape c = t_shape t ∧
  h' !! t_loc c = Some (read h (t_loc t)) ∧ dom h' = {[t_loc c]} ∪ dom h.
Proof. unfold clone. intros Hn. by apply new_tensor_spec in Hn. Qed.

(** ** The zero padding *)

Lemma channel_only_delta_iff this target :
  channel_only_delta this target ↔
  ∃ oc n d hh w, target = [oc; n; hh; w] ∧ this = [oc; n + S d; hh; w].
Proof.
  split.
  - intros (Hl1 & Hl2 & Heq & a & b & Ha & Hb & Hlt).
    destruct this as [|x0 [|x1 [|x2 [|x3 [|??]]]]]; try done.
    destruct target as [|y0 [|y1 [|y2 [|y3 [|??]]]]]; try done.
    pose proof (Heq 0 ltac:(done)) as E0. pose proof (Heq 2 ltac:(done)) as E2.
    pose proof (Heq 3 ltac:(done)) as E3. simpl in *. simplify_eq.
    exists y0, b, (a - b - 1), y2, y3. split; [done|]. do 4 f_equal. lia.
  - intros (oc & n & d & hh & w & -> & ->). repeat split; try done.
    + intros [|[|[|[|i]]]] Hi; done.
    + exists (n + S d), n. repeat split; try done. lia.
Qed.

Lemma st_bind_ok_inv {S X Y} (f : X → st S Y) (c : st S X) h h' y :
  (c ≫= f) h = (h', Ok y) → ∃ h1 x, c h = (h1, Ok x) ∧ f x h1 = (h', Ok y).
Proof.
  unfold mbind, st_bind. destruct (c h) as [h1 [x|e]]; [|done]. eauto.
Qed.

Lemma st_bind_raise_inv {S X Y} (f : X → st S Y) (c : st S X) h h' e :
  (c ≫= f) h = (h', Raise e) →
  c h = (h', Raise e) ∨ ∃ h1 x, c h = (h1, Ok x) ∧ f x h1 = (h', Raise e).
Proof.
  unfold mbind, st_bind. destruct (c h) as [h1 [x|e']]; [eauto|]. intros [= <- <-]. eauto.
Qed.

Lemma lift_inv {S X} (r : result X) (h h' : S) r' :
  lift r h = (h', r') → h' = h ∧ r' = r.
Proof. by intros [= <- <-]. Qed.

Lemma returning_inv {S X} (f : S → S * X) h h' r :
  returning f h = (h', r) → ∃ x, f h = (h', x) ∧ r = Ok x.
Proof. unfold returning. destruct (f h) as [h1 x]. intros [= <- <-]. eauto. Qed.

Lemma torch_zeros_inv {A} `{Scalar A} sizes (h h' : store A) r :
  torch_zeros sizes h = (h', r) →
  match r with
  | Ok t => ∃ zs, zeros sizes = Ok zs ∧ new_tensor zs h = (h', t)
  | Raise _ => h' = h
  end.
Proof.
  unfold torch_zeros. destruct r as [t|e]; intros Hb.
  - apply st_bind_ok_inv in Hb as (h1 & zs & [-> Hz]%lift_inv & (t' & Hn & [= <-])%returning_inv).
    eauto.
  - apply st_bind_raise_inv in Hb as [[-> _]%lift_inv|(h1 & zs & _ & (? & _ & [=])%returning_inv)].
    done.
Qed.

Lemma torch_cat_inv {A} a b dim (h h' : store A) r :
  torch_cat a b dim h = (h', r) →
  match r with
  | Ok t => ∃ v, cat (deref h a) (deref h b) dim = Ok v ∧ new_tensor v h = (h', t)
  | Raise _ => h' = h ∧ is_ok (cat (deref h a) (deref h b) dim) = false
  end.
Proof.
  unfold torch_cat. destruct r as [t|e]; intros Hb.
  - apply st_bind_ok_inv in Hb as (h1 & zs & [-> Hz]%lift_inv & (t' & Hn & [= <-])%returning_inv).
    eauto.
  - apply st_bind_raise_inv in Hb as [[-> Hc]%lift_inv|(h1 & zs & _ & (? & _ & [=])%returning_inv)].
    by rewrite <-Hc.
Qed.

Lemma pad_with_zeros_ok {A} `{Scalar A} this target (h h' : store A) c :
  pad_with_zeros this target h = (h', Ok c) →
  ∃ oc n d hh w zs,
    t_shape target = [oc; n; hh; w] ∧ t_shape this = [oc; n + d; hh; w] ∧
    zeros [Z.of_nat oc; Z.of_nat d; Z.of_nat hh; Z.of_nat w] = Ok zs ∧
    (t_loc target ∈ dom h → cat (deref h target) zs 1 = Ok (deref h' c)) ∧
    t_shape c = t_shape this ∧ (t_loc c ∉ dom h) ∧ t_loc c ∈ dom h' ∧ h ⊆ h'.
Proof.
  unfold pad_with_zeros. intros Hrun.
  apply st_bind_ok_inv in Hrun as (? & a & [-> Ha]%lift_inv & Hrun).
  apply st_bind_ok_inv in Hrun as (? & b & [-> Hb]%lift_inv & Hrun).
  apply st_bind_ok_inv in Hrun as (? & [[[oc ?] hh] w] & [-> Hu]%lift_inv & Hrun).
  apply st_bind_ok_inv in Hrun as (h1 & tz & Hzs & Hrun).
  apply torch_zeros_inv in Hzs as (zs & Hz & Hn1).
  apply torch_cat_inv in Hrun as (r & Hcat & Hn2).
  apply new_tensor_spec in Hn1 as (Hfz & Hsub1 & Hshz & Hlz & Hdom1).
  apply new_tensor_spec in Hn2 as (Hfr & Hsub2 & Hshr & Hlr & Hdom2).
  rename c into tr, h' into h2.
  destruct (t_shape this) as [|oc0 [|a0 [|hh0 [|w0 [|??]]]]] eqn:Hthis; try done.
  destruct (t_shape target) as [|oc' [|b0 tl]] eqn:Htarget; try done.
  unfold size_dim in Ha, Hb. simpl in Ha, Hb, Hu.
  injection Ha as ->. injection Hb as ->. injection Hu as -> -> -> ->.
  pose proof (zeros_ok _ _ Hz) as (Hpos & Hzsh & Hzd). simpl in Hzsh.
  assert (deref h1 tz = zs) as Etz.
  { unfold deref, read. rewrite Hlz, Hshz. by destruct zs. }
  assert (deref h2 tr = r) as Etr.
  { unfold deref, read. rewrite Hlr, Hshr. by destruct r. }
  rewrite Etz in Hcat.
  assert (0 ≤ Z.of_nat a0 - Z.of_nat b0)%Z as Hd.
  { by inversion Hpos as [|?? _ Hpos']; inversion Hpos'. }
  rewrite !Nat2Z.id in Hzsh.
  assert (cat_compatible (oc' :: b0 :: tl) (shape zs) 1) as Hcompat.
  { unfold cat in Hcat. unfold deref in Hcat at 1. simpl in Hcat.
    rewrite Htarget, Hzsh in Hcat.
    rewrite decide_False in Hcat by done. rewrite decide_False in Hcat by done.
    rewrite Hzsh. by case_decide. }
  rewrite Hzsh in Hcompat. destruct Hcompat as (Hlen & _ & Htk & Hdr). simpl in *.
  destruct tl as [|hh' [|w' [|??]]]; try done.
  injection Htk as ->. injection Hdr as -> ->.
  assert (Z.of_nat a0 - Z.of_nat b0 = Z.of_nat (a0 - b0))%Z as Hsub by lia.
  exists oc0, b0, (a0 - b0), hh0, w0, zs. split; [done|]. split; [do 2 f_equal; lia|].
  split; [by rewrite <-Hsub|]. rewrite Etr.
  split; [by intros Hdom; rewrite <-(deref_weaken h h1)|].
  split.
  { rewrite Hshr. unfold cat in Hcat. unfold deref in Hcat at 1. simpl in Hcat.
    rewrite Htarget, Hzsh in Hcat.
    rewrite decide_False in Hcat by done. rewrite decide_False in Hcat by done.
    case_decide; [|done]. injection Hcat as <-. simpl. do 2 f_equal. lia. }
  split; [set_solver|]. split; [set_solver|]. by etrans.
Qed.

Lemma pad_with_zeros_run {A} `{Scalar A} this target (h : store A) oc n d hh w :
  t_shape target = [oc; n; hh; w] → t_shape this = [oc; n + d; hh; w] →
  ∃ h' c, pad_with_zeros this target h = (h', Ok c).
Proof.
  intros Htarget Hthis. unfold pad_with_zeros.
  rewrite Hthis, Htarget. unfold mbind at 1 2 3, st_bind, lift, size_dim. simpl.
  unfold mbind, st_bind, torch_zeros, torch_cat, lift, returning.
  unfold mbind, st_bind.
  assert (zeros [Z.of_nat oc; (Z.of_nat (n + d) - Z.of_nat n)%Z; Z.of_nat hh; Z.of_nat w]
          = Ok (TVal [oc; d; hh; w] (replicate (numel [oc; d; hh; w]) (@s_zero A _)))) as ->.
  { unfold zeros. rewrite decide_True by (repeat constructor; lia).
    simpl. rewrite !Nat2Z.id. by replace (Z.to_nat (Z.of_nat (n + d) - Z.of_nat n)) with d by lia. }
  destruct (new_tensor _ h) as [h1 tz] eqn:Hn1.
  apply new_tensor_spec in Hn1 as (_ & _ & Hshz & _ & _). simpl in Hshz.
  assert (is_ok (cat (deref h1 target) (deref h1 tz) 1) = true) as Hc.
  { unfold cat, deref. simpl. rewrite Htarget, Hshz.
    rewrite decide_False by done. rewrite decide_False by done.
    by rewrite decide_True by (unfold cat_compatible; simpl; repeat split; lia). }
  destruct (cat _ _ 1) as [r|]; [|done].
  destruct (new_tensor r h1) as [h2 tr]. eauto.
Qed.

Lemma pad_with_zeros_raise {A} `{Scalar A} this target (h h' : store A) e :
  pad_with_zeros this target h = (h', Raise e) → h ⊆ h'.
Proof.
  unfold pad_with_zeros. intros Hrun.
  apply st_bind_raise_inv in Hrun as [[-> _]%lift_inv|(? & a & [-> _]%lift_inv & Hrun)]; [done|].
  apply st_bind_raise_inv in Hrun as [[-> _]%lift_inv|(? & b & [-> _]%lift_inv & Hrun)]; [done|].
  apply st_bind_raise_inv in Hrun
    as [[-> _]%lift_inv|(? & [[[oc ?] hh] w] & [-> _]%lift_inv & Hrun)]; [done|].
  apply st_bind_raise_inv in Hrun as [Hz|(h1 & tz & Hz & Hrun)].
  - by apply torch_zeros_inv in Hz as ->.
  - apply torch_zeros_inv in Hz as (zs & _ & (_ & Hsub & _)%new_tensor_spec).
    by apply torch_cat_inv in Hrun as [-> _].
Qed.

(** The zero padding succeeds exactly on a channel-only delta. *)
Lemma pad_with_zeros_ok_iff {A} `{Scalar A} this target (h : store A) :
  t_shape this ≠ t_shape target →
  is_ok (pad_with_zeros this target h).2 = true ↔
  channel_only_delta (t_shape this) (t_shape target).
Proof.
  intros Hne. rewrite channel_only_delta_iff. split.
  - destruct (pad_with_zeros this target h) as [h' [c|e]] eqn:Hrun; [|done]. intros _.
    apply pad_with_zeros_ok in Hrun as (oc & n & d & hh & w & zs & Ht & Hs & _).
    destruct d as [|d]; [rewrite Ht, Hs, Nat.add_0_r in Hne; done|]. eauto 10.
  - intros (oc & n & d & hh & w & Ht & Hs).
    destruct (pad_with_zeros_run this target h oc n (S d) hh w Ht Hs) as (h' & c & ->). done.
Qed.

(** ** [load_state_dict] *)

Lemma load_params_frame {A} sd init (h : store A) l :
  l ∉ ((λ kp, t_loc kp.2) <$> sd) → load_params sd init h !! l = h !! l.
Proof.
  revert h. induction sd as [|[k p] sd IH]; intros h Hl; [done|].
  rewrite fmap_cons, not_elem_of_cons in Hl. destruct Hl as [Hne Hl]. simpl in *.
  destruct (init !! k) as [inp|]; [|by apply IH].
  case_decide; [|by apply IH].
  rewrite IH by done. unfold copy_. by rewrite lookup_insert_ne.
Qed.

Lemma load_params_dom {A} sd init (h : store A) :
  Forall (λ kp, t_loc kp.2 ∈ dom h) sd → dom (load_params sd init h) = dom h.
Proof.
  revert h. induction sd as [|[k p] sd IH]; intros h Hall; [done|].
  apply Forall_cons in Hall as [Hp Hall]. simpl in *.
  destruct (init !! k) as [inp|]; [|by apply IH].
  case_decide; [|by apply IH].
  assert (dom (copy_ h p inp) = dom h) as Hd.
  { unfold copy_. rewrite dom_insert_L. set_solver. }
  rewrite IH; [done|]. by rewrite Hd.
Qed.

(** What the copying pass leaves in the cell of a parameter. *)
Lemma load_params_lookup {A} sd init (h : store A) k p :
  NoDup ((λ kp, t_loc kp.2) <$> sd) →
  (∀ k' c, init !! k' = Some c → t_loc c ∉ ((λ kp, t_loc kp.2) <$> sd)) →
  (k, p) ∈ sd →
  load_params sd init h !! t_loc p =
    match init !! k with
    | Some inp =>
        if decide (t_shape inp = t_shape p) then Some (read h (t_loc inp))
        else h !! t_loc p
    | None => h !! t_loc p
    end.
Proof.
  revert h. induction sd as [|[k0 p0] sd IH]; intros h Hnd Hsep Hin.
  { by apply elem_of_nil in Hin. }
  rewrite fmap_cons in Hnd. apply NoDup_cons in Hnd as [Hp0 Hnd]. simpl in Hp0.
  assert (∀ k' c, init !! k' = Some c → t_loc c ∉ ((λ kp, t_loc kp.2) <$> sd)) as Hsep'.
  { intros k' c Hc Hel. apply (Hsep k' c Hc). rewrite fmap_cons. by right. }
  apply elem_of_cons in Hin as [[= -> ->]|Hin].
  - simpl. destruct (init !! k0) as [inp|]; [|by apply load_params_frame].
    case_decide; [|by apply load_params_frame].
    rewrite load_params_frame by done. unfold copy_. by rewrite lookup_insert_eq.
  - assert (t_loc p ≠ t_loc p0) as Hne.
    { intros Heq. apply Hp0. rewrite <-Heq.
      apply (list_elem_of_fmap_2 (λ kp : string * tensor, t_loc kp.2) _ _ Hin). }
    simpl. destruct (init !! k0) as [inp0|] eqn:E0; [|by apply IH].
    case_decide; [|by apply IH].
    rewrite IH by done. unfold copy_. rewrite lookup_insert_ne by done.
    destruct (init !! k) as [inp|] eqn:E; [|done]. case_decide; [|done].
    f_equal. unfold read. rewrite lookup_insert_ne; [done|].
    intros Heq. apply (Hsep k inp E). rewrite fmap_cons, <-Heq. by left.
Qed.

Lemma load_state_dict_store {A} m init strict (h : store A) :
  (load_state_dict m init strict h).1 = load_params (state_dict m) init h.
Proof. unfold load_state_dict. by case_decide. Qed.

Lemma filter_nil_forall {X} (P : X → Prop) `{!∀ x, Decision (P x)} (l : list X) :
  filter P l = [] ↔ ∀ x, x ∈ l → ¬ P x.
Proof.
  induction l as [|a l IH].
  { split; [|done]. intros _ x Hx. by apply elem_of_nil in Hx. }
  rewrite filter_cons. destruct (decide (P a)) as [Ha|Ha].
  - split; [done|]. intros Hall. exfalso. apply (Hall a); [by left|done].
  - rewrite IH. split.
    + intros Hall x [->|Hx]%elem_of_cons; [done|by apply Hall].
    + intros Hall x Hx. apply Hall. by right.
Qed.

Lemma size_mismatches_nil sd init :
  size_mismatches sd init = [] ↔
  ∀ k p inp, (k, p) ∈ sd → init !! k = Some inp → t_shape inp = t_shape p.
Proof.
  unfold size_mismatches. split.
  - intros Hnil%fmap_nil_inv k p inp Hin Hk.
    apply filter_nil_forall with (x := (k, p)) in Hnil; [|done].
    unfold mismatched in Hnil. simpl in Hnil. rewrite Hk in Hnil. by apply dec_stable.
  - intros Hall. assert (filter (mismatched init) sd = []) as ->; [|done].
    apply filter_nil_forall. intros [k p] Hin. unfold mismatched. simpl.
    destruct (init !! k) as [inp|] eqn:E; [|by intros []].
    intros Hne. apply Hne. by apply (Hall k p inp).
Qed.

Lemma missing_keys_nil sd init :
  missing_keys sd init = [] ↔ ∀ k, k ∈ sd.*1 → is_Some (init !! k).
Proof.
  unfold missing_keys. rewrite filter_nil_forall.
  split; intros Hall k Hk; specialize (Hall k Hk).
  - destruct (init !! k); [eauto|done].
  - intros Hn. rewrite Hn in Hall. by destruct Hall.
Qed.

Lemma unexpected_keys_nil sd init :
  unexpected_keys sd init = [] ↔ ∀ k, is_Some (init !! k) → k ∈ sd.*1.
Proof.
  unfold unexpected_keys. rewrite filter_nil_forall.
  split.
  - intros Hall k Hk. destruct (decide (k ∈ sd.*1)) as [|Hn]; [done|].
    exfalso. apply (Hall k); [|done]. by apply elem_of_elements, elem_of_dom.
  - intros Hall k Hk%elem_of_elements%elem_of_dom Hn. by apply Hn, Hall.
Qed.

Lemma load_state_dict_ok_iff {A} m init strict (h : store A) :
  is_ok (load_state_dict m init strict h).2 = true ↔
  size_mismatches (state_dict m) init = [] ∧
  (strict = true →
   unexpected_keys (state_dict m) init = [] ∧ missing_keys (state_dict m) init = []).
Proof.
  unfold load_state_dict. case_decide as Hd; simpl.
  - split; [done|]. intros [Hs Hst]. destruct Hd as [[-> [Hu|Hm]]|Hd]; try done.
    + by destruct (Hst eq_refl).
    + by destruct (Hst eq_refl).
  - split; [|done]. intros _.
    destruct (decide (size_mismatches (state_dict m) init = [])) as [Hs|Hs];
      [|exfalso; apply Hd; by right].
    split; [done|]. intros ->.
    destruct (decide (unexpected_keys (state_dict m) init = [])) as [Hu|Hu];
      destruct (decide (missing_keys (state_dict m) init = [])) as [Hm|Hm]; try done;
      exfalso; apply Hd; left; eauto.
Qed.

(** ** The bootstrap loop *)

Lemma assoc_elem_of {V} k (l : list (string * V)) v : assoc k l = Some v → (k, v) ∈ l.
Proof.
  induction l as [|[k' v'] l IH]; simpl; [done|].
  case_decide as Hk; [intros [= ->]; subst; by left|]. intros Hl. right. by apply IH.
Qed.

Lemma assoc_lookup {V} k (l : list (string * V)) v :
  NoDup l.*1 → (k, v) ∈ l → assoc k l = Some v.
Proof.
  induction l as [|[k' v'] l IH]; simpl; intros Hnd Hin.
  { by apply elem_of_nil in Hin. }
  apply NoDup_cons in Hnd as [Hk' Hnd].
  apply elem_of_cons in Hin as [[= -> ->]|Hin]; [by rewrite decide_True|].
  rewrite decide_False; [by apply IH|]. intros ->. apply Hk'.
  apply (list_elem_of_fmap_2 fst _ _ Hin).
Qed.

Lemma assoc_None {V} k (l : list (string * V)) : assoc k l = None ↔ k ∉ l.*1.
Proof.
  induction l as [|[k' v'] l IH]; simpl.
  { split; [intros _ Hk; by apply elem_of_nil in Hk|done]. }
  rewrite not_elem_of_cons. case_decide as Hk; [|by rewrite IH; naive_solver].
  split; [done|]. by intros [? _].
Qed.

Lemma resolved_after {A} `{Scalar A} (h h1 h2 : store A) unet_sd key this c :
  resolved h h1 unet_sd key this c → h1 ⊆ h2 → t_loc c ∈ dom h1 →
  resolved h h2 unet_sd key this c.
Proof.
  intros Hr Hsub Hc. pose proof (deref_weaken h1 h2 c Hsub Hc) as E.
  destruct Hr; [eapply resolved_copy|eapply resolved_pad|eapply resolved_fresh];
    rewrite ?E; eauto.
Qed.

Lemma resolved_before {A} `{Scalar A} (h0 h h1 : store A) unet_sd key this c :
  resolved h h1 unet_sd key this c → h0 ⊆ h →
  Forall (λ kp, t_loc kp.2 ∈ dom h0) unet_sd → t_loc this ∈ dom h0 →
  resolved h0 h1 unet_sd key this c.
Proof.
  intros Hr Hsub Hun Hthis.
  assert (∀ target, assoc key unet_sd = Some target → deref h target = deref h0 target) as E.
  { intros target Ht%assoc_elem_of. apply deref_weaken; [done|].
    by apply (proj1 (Forall_forall _ _) Hun (key, target)). }
  pose proof (deref_weaken h0 h this Hsub Hthis) as E'.
  destruct Hr as [target ? ? Hv|target oc n d hh w zs ? ? ? ? ? Hv|? Hv].
  - eapply resolved_copy; eauto. by rewrite <-(E target).
  - eapply resolved_pad; eauto. by rewrite <-(E target).
  - eapply resolved_fresh; eauto. by rewrite <-E'.
Qed.

Lemma clone_deref {A} t (h h' : store A) c :
  clone t h = (h', c) → deref h' c = deref h t.
Proof.
  intros (_ & _ & Hsh & Hl & _)%clone_spec. unfold deref, read. by rewrite Hl, Hsh.
Qed.

Lemma init_from_unet_cons {A} `{Scalar A} unet_sd key this rest init zp fr (h : store A) :
  init_from_unet unet_sd ((key, this) :: rest) init zp fr h =
    match assoc key unet_sd with
    | Some target =>
        if decide (t_shape this = t_shape target) then
          let '(h1, c) := clone target h in
          init_from_unet unet_sd rest (<[key := c]> init) zp fr h1
        else
          match pad_with_zeros this target h with
          | (h1, Ok c) =>
              init_from_unet unet_sd rest (<[key := c]> init) ({[key]} ∪ zp) fr h1
          | (h1, Raise e) => (h1, Raise e)
          end
    | None =>
        let '(h1, c) := clone this h in
        init_from_unet unet_sd rest (<[key := c]> init) zp ({[key]} ∪ fr) h1
    end.
Proof. done. Qed.

Lemma init_from_unet_raise {A} `{Scalar A} unet_sd scratch init zp fr (h h' : store A) e :
  init_from_unet unet_sd scratch init zp fr h = (h', Raise e) →
  h ⊆ h' ∧
  ∃ key this target, (key, this) ∈ scratch ∧ assoc key unet_sd = Some target ∧
    t_shape this ≠ t_shape target ∧
    ¬ channel_only_delta (t_shape this) (t_shape target).
Proof.
  revert init zp fr h. induction scratch as [|[key this] rest IH]; intros init zp fr h; [done|].
  rewrite init_from_unet_cons. destruct (assoc key unet_sd) as [target|] eqn:Ha.
  - case_decide as Hsh.
    + destruct (clone target h) as [h1 c] eqn:Hc.
      intros (Hsub' & k & t & tg & Hin & Hrest)%IH.
      apply clone_spec in Hc as (_ & Hsub & _). split; [by etrans|].
      exists k, t, tg. split; [by right|done].
    + pose proof (pad_with_zeros_ok_iff this target h Hsh) as Hiff.
      destruct (pad_with_zeros this target h) as [h1 [c|e']] eqn:Hp.
      * intros (Hsub' & k & t & tg & Hin & Hrest)%IH.
        apply pad_with_zeros_ok in Hp as (?&?&?&?&?&?&?&?&?&?&?&?&?&Hsub).
        split; [by etrans|]. exists k, t, tg. split; [by right|done].
      * intros [= <- <-]. split; [by apply pad_with_zeros_raise in Hp|].
        exists key, this, target. split; [by left|]. split; [done|]. split; [done|].
        simpl in Hiff. intros Hd%Hiff. done.
  - destruct (clone this h) as [h1 c] eqn:Hc.
    intros (Hsub' & k & t & tg & Hin & Hrest)%IH.
    apply clone_spec in Hc as (_ & Hsub & _). split; [by etrans|].
    exists k, t, tg. split; [by right|done].
Qed.

(** The loop succeeds exactly when every shape mismatch is a channel-only
    delta. *)
Lemma init_from_unet_is_ok {A} `{Scalar A} unet_sd scratch init zp fr (h : store A) :
  is_ok (init_from_unet unet_sd scratch init zp fr h).2 = true ↔
  ∀ key this target, (key, this) ∈ scratch → assoc key unet_sd = Some target →
    t_shape this ≠ t_shape target →
    channel_only_delta (t_shape this) (t_shape target).
Proof.
  revert init zp fr h. induction scratch as [|[key this] rest IH]; intros init zp fr h.
  { split; [|done]. intros _ key this target Hin. by apply elem_of_nil in Hin. }
  rewrite init_from_unet_cons.
  destruct (assoc key unet_sd) as [target|] eqn:Ha.
  - case_decide as Hsh.
    + destruct (clone target h) as [h1 c]. rewrite IH. split.
      * intros Hall k t tg [[= -> ->]|Hin]%elem_of_cons Hk Hne; [congruence|by eapply Hall].
      * intros Hall k t tg Hin. apply Hall. by right.
    + pose proof (pad_with_zeros_ok_iff this target h Hsh) as Hiff.
      destruct (pad_with_zeros this target h) as [h1 [c|e]]; simpl in Hiff.
      * rewrite IH. split.
        -- intros Hall k t tg [[= -> ->]|Hin]%elem_of_cons Hk Hne; [|by eapply Hall].
           rewrite Ha in Hk. injection Hk as <-. by apply Hiff.
        -- intros Hall k t tg Hin. apply Hall. by right.
      * simpl. split; [done|]. intros Hall.
        apply Hiff, (Hall key this target); [by left|done|done].
  - destruct (clone this h) as [h1 c]. rewrite IH. split.
    + intros Hall k t tg [[= -> ->]|Hin]%elem_of_cons Hk Hne; [congruence|by eapply Hall].
    + intros Hall k t tg Hin. apply Hall. by right.
Qed.

(** What the loop leaves in [init_sd] and in the two sets. *)
Lemma init_from_unet_ok {A} `{Scalar A} unet_sd scratch :
  ∀ init zp fr (h h1 : store A) init' zp' fr',
  init_from_unet unet_sd scratch init zp fr h = (h1, Ok (init', zp', fr')) →
  NoDup scratch.*1 →
  Forall (λ kp, t_loc kp.2 ∈ dom h) unet_sd →
  Forall (λ kp, t_loc kp.2 ∈ dom h) scratch →
  h ⊆ h1 ∧
  (∀ k, k ∉ scratch.*1 → init' !! k = init !! k) ∧
  (∀ key this, (key, this) ∈ scratch →
     ∃ c, init' !! key = Some c ∧ (t_loc c ∉ dom h) ∧ t_loc c ∈ dom h1 ∧
          t_shape c = t_shape this ∧ resolved h h1 unet_sd key this c) ∧
  (∀ k, k ∈ zp' ↔ k ∈ zp ∨ ∃ this target, (k, this) ∈ scratch ∧
          assoc k unet_sd = Some target ∧ t_shape this ≠ t_shape target) ∧
  (∀ k, k ∈ fr' ↔ k ∈ fr ∨ (k ∈ scratch.*1 ∧ assoc k unet_sd = None)).
Proof.
  induction scratch as [|[key this] rest IH];
    intros init zp fr h h1 init' zp' fr' Hrun Hnd Hun Hsc.
  { injection Hrun as <- <- <- <-. split; [done|]. split; [done|].
    split; [by intros ?? ?%elem_of_nil|].
    split; intros k; (split; [by left|]).
    - by intros [?|(? & ? & ?%elem_of_nil & _)].
    - by intros [?|[?%elem_of_nil _]]. }
  rewrite init_from_unet_cons in Hrun. rewrite fmap_cons in Hnd.
  apply NoDup_cons in Hnd as [Hkey Hnd]. simpl in Hkey.
  apply Forall_cons in Hsc as [Hthis Hsc]. simpl in Hthis.
  (* one body step from [h] to [ha], then the rest of the loop *)
  assert (∃ ha c zpa fra,
    init_from_unet unet_sd rest (<[key := c]> init) zpa fra ha = (h1, Ok (init', zp', fr')) ∧
    h ⊆ ha ∧ (t_loc c ∉ dom h) ∧ t_loc c ∈ dom ha ∧ t_shape c = t_shape this ∧
    resolved h ha unet_sd key this c ∧
    (∀ k, k ∈ zpa ↔ k ∈ zp ∨ (k = key ∧ ∃ target, assoc key unet_sd = Some target ∧
                                 t_shape this ≠ t_shape target)) ∧
    (∀ k, k ∈ fra ↔ k ∈ fr ∨ (k = key ∧ assoc key unet_sd = None)))
    as (ha & c & zpa & fra & Hrest & Hsub & Hfresh & Hdomc & Hshc & Hres & Hzpa & Hfra).
  { destruct (assoc key unet_sd) as [target|] eqn:Ha.
    - case_decide as Hsh.
      + destruct (clone target h) as [ha c] eqn:Hc.
        pose proof (clone_deref _ _ _ _ Hc) as Hd.
        apply clone_spec in Hc as (Hf & Hsub & Hshc & Hl & Hdom).
        exists ha, c, zp, fr. split; [done|]. split; [done|]. split; [done|].
        split; [set_solver|]. split; [congruence|].
        split; [by eapply resolved_copy|]. split; intros k; naive_solver.
      + destruct (pad_with_zeros this target h) as [ha [c|e]] eqn:Hp; [|done].
        apply pad_with_zeros_ok in Hp
          as (oc & n & d & hh & w & zs & Ht & Hs & Hz & Hcat & Hshc & Hf & Hdomc & Hsub).
        exists ha, c, ({[key]} ∪ zp), fr. split; [done|]. split; [done|]. split; [done|].
        split; [done|]. split; [done|]. split.
        { eapply resolved_pad; eauto. apply Hcat.
          apply assoc_elem_of in Ha.
          by apply (proj1 (Forall_forall _ _) Hun (key, target)). }
        split; intros k; [|naive_solver]. rewrite elem_of_union, elem_of_singleton.
        naive_solver.
    - destruct (clone this h) as [ha c] eqn:Hc.
      pose proof (clone_deref _ _ _ _ Hc) as Hd.
      apply clone_spec in Hc as (Hf & Hsub & Hshc & Hl & Hdom).
      exists ha, c, zp, ({[key]} ∪ fr). split; [done|]. split; [done|]. split; [done|].
      split; [set_solver|]. split; [done|].
      split; [by eapply resolved_fresh|]. split; intros k; [naive_solver|].
      rewrite elem_of_union, elem_of_singleton. naive_solver. }
  assert (dom h ⊆ dom ha) as Hdsub by by apply subseteq_dom.
  apply IH in Hrest as (Hsub' & Hother & Hkeys & Hzp & Hfr); [|done|..]; cycle 1.
  { eapply Forall_impl; [exact Hun|]. simpl. intros; set_solver. }
  { eapply Forall_impl; [exact Hsc|]. simpl. intros; set_solver. }
  split; [by etrans|]. split; [|split; [|split]].
  - intros k [Hne Hk]%not_elem_of_cons. rewrite Hother by done.
    by rewrite lookup_insert_ne.
  - intros k t [[= -> ->]|Hin]%elem_of_cons.
    + exists c. rewrite Hother by done. rewrite lookup_insert_eq.
      split; [done|]. split; [done|].
      split; [by apply (subseteq_dom _ _ Hsub')|]. split; [done|].
      by eapply resolved_after.
    + destruct (Hkeys k t Hin) as (c' & Hl & Hf' & Hd' & Hsh' & Hr').
      exists c'. split; [done|]. split; [set_solver|]. split; [done|]. split; [done|].
      eapply resolved_before; eauto.
      by apply (proj1 (Forall_forall _ _) Hsc (k, t)).
  - intros k. rewrite Hzp, Hzpa. split.
    + intros [[?|[-> (tg & ? & ?)]]|(t & tg & Hin & ? & ?)].
      * by left.
      * right. exists this, tg. split; [by left|done].
      * right. exists t, tg. split; [by right|done].
    + intros [?|(t & tg & [[= -> ->]|Hin]%elem_of_cons & ? & ?)].
      * by left; left.
      * left; right. eauto.
      * right. eauto.
  - intros k. rewrite Hfr, Hfra, fmap_cons, elem_of_cons. simpl. naive_solver.
Qed.

(** ** [load_controlnet_from_unet] *)

Lemma resolved_transfer {A} `{Scalar A} (h h1 h2 : store A) unet_sd key this c c2 :
  resolved h h1 unet_sd key this c → deref h2 c2 = deref h1 c →
  resolved h h2 unet_sd key this c2.
Proof.
  intros Hr E.
  destruct Hr; [eapply resolved_copy|eapply resolved_pad|eapply resolved_fresh];
    rewrite ?E; eauto.
Qed.

Lemma facade_wf_controlnet {A} (h : store A) self :
  facade_wf h self →
  NoDup (state_dict (controlnet self)).*1 ∧
  NoDup (owned (controlnet self)) ∧
  Forall (λ kp, t_loc kp.2 ∈ dom h) (state_dict (controlnet self)) ∧
  Forall (λ kp, t_loc kp.2 ∈ dom h) (state_dict (unet self)) ∧
  (∀ l, l ∈ owned (unet self) → l ∉ owned (controlnet self)).
Proof.
  intros (Hnd & [_ Hu] & _ & _ & [Hk Hc]). unfold all_owned in Hnd.
  split; [done|]. split; [|split; [|split]].
  - apply NoDup_app in Hnd as (_ & _ & Hnd). apply NoDup_app in Hnd as (_ & _ & Hnd).
    by apply NoDup_app in Hnd as (_ & _ & Hnd).
  - eapply Forall_impl; [exact Hc|]. intros kp. apply tensor_ok_dom.
  - eapply Forall_impl; [exact Hu|]. intros kp. apply tensor_ok_dom.
  - intros l Hl. apply NoDup_app in Hnd as (_ & Hdis & _).
    intros Hc'. apply (Hdis l Hl). rewrite !elem_of_app. eauto.
Qed.

Lemma elem_of_keys (sd : list (string * tensor)) k :
  k ∈ sd.*1 → ∃ p, (k, p) ∈ sd.
Proof. intros ([k' p] & -> & Hin)%list_elem_of_fmap. eauto. Qed.

(** The strict load that ends the bootstrap cannot fail: [init_sd] holds a
    tensor of the declared shape for exactly the declared keys. *)
Lemma bootstrap_load_ok {A} (sd_cn : list (string * tensor)) m
    (init' : gmap string tensor) (h1 : store A) :
  state_dict m = sd_cn →
  (∀ k, k ∉ sd_cn.*1 → init' !! k = None) →
  (∀ key this, (key, this) ∈ sd_cn →
     ∃ c, init' !! key = Some c ∧ t_shape c = t_shape this) →
  is_ok (load_state_dict m init' true h1).2 = true.
Proof.
  intros Hsd Hother Hkeys. apply load_state_dict_ok_iff. rewrite Hsd. split.
  - apply size_mismatches_nil. intros k p inp Hin Hk.
    destruct (Hkeys k p Hin) as (c & Hc & Hsh). congruence.
  - intros _. split.
    + apply unexpected_keys_nil. intros k [c Hc].
      destruct (decide (k ∈ sd_cn.*1)) as [|Hn]; [done|]. rewrite Hother in Hc; done.
    + apply missing_keys_nil. intros k (p & Hin)%elem_of_keys.
      destruct (Hkeys k p Hin) as (c & Hc & _). eauto.
Qed.

Lemma load_controlnet_from_unet_is_ok {A} `{Scalar A} (self : ControlLDM A) (h : store A) :
  facade_wf h self →
  is_ok (load_controlnet_from_unet self h).2 = true ↔
  ∀ key this target, (key, this) ∈ state_dict (controlnet self) →
    assoc key (state_dict (unet self)) = Some target →
    t_shape this ≠ t_shape target →
    channel_only_delta (t_shape this) (t_shape target).
Proof.
  intros Hwf. rewrite <-(init_from_unet_is_ok _ _ ∅ ∅ ∅ h).
  apply facade_wf_controlnet in Hwf as (Hk & Hnd & Hc & Hu & Hdis).
  unfold load_controlnet_from_unet, mbind, st_bind.
  destruct (init_from_unet _ _ ∅ ∅ ∅ h) as [h1 [[[init' zp'] fr']|e]] eqn:Hrun; [|done].
  apply init_from_unet_ok in Hrun as (Hsub & Hother & Hkeys & _); [|done..].
  assert (is_ok (load_state_dict (controlnet self) init' true h1).2 = true) as Hok.
  { apply (bootstrap_load_ok (state_dict (controlnet self))); [done|..].
    - intros k Hn. by rewrite Hother.
    - intros key this Hin. destruct (Hkeys key this Hin) as (c & ? & _ & _ & ? & _). eauto. }
  destruct (load_state_dict _ init' true h1) as [h2 [?|?]]; done.
Qed.

Lemma load_controlnet_from_unet_raise {A} `{Scalar A} (self : ControlLDM A) (h h' : store A) e :
  facade_wf h self →
  load_controlnet_from_unet self h = (h', Raise e) →
  h ⊆ h' ∧
  ∃ key this target, (key, this) ∈ state_dict (controlnet self) ∧
    assoc key (state_dict (unet self)) = Some target ∧
    t_shape this ≠ t_shape target ∧
    ¬ channel_only_delta (t_shape this) (t_shape target).
Proof.
  intros Hwf Hrun. unfold load_controlnet_from_unet in Hrun.
  apply st_bind_raise_inv in Hrun as [Hl|(h1 & [[init' zp'] fr'] & Hl & Hrun)].
  { by apply init_from_unet_raise in Hl. }
  exfalso.
  apply facade_wf_controlnet in Hwf as (Hk & Hnd & Hc & Hu & Hdis).
  apply init_from_unet_ok in Hl as (Hsub & Hother & Hkeys & _); [|done..].
  assert (is_ok (load_state_dict (controlnet self) init' true h1).2 = true) as Hok.
  { apply (bootstrap_load_ok (state_dict (controlnet self))); [done|..].
    - intros k Hn. by rewrite Hother.
    - intros key this Hin. destruct (Hkeys key this Hin) as (c & ? & _ & _ & ? & _). eauto. }
  apply st_bind_raise_inv in Hrun as [Hr|(h2 & x & _ & [=])].
  by rewrite Hr in Hok.
Qed.

Lemma load_controlnet_from_unet_loop_ok {A} `{Scalar A} (self : ControlLDM A) (h : store A) :
  is_ok (load_controlnet_from_unet self h).2 = true →
  is_ok (init_from_unet (state_dict (unet self)) (state_dict (controlnet self))
           ∅ ∅ ∅ h).2 = true.
Proof.
  unfold load_controlnet_from_unet, mbind, st_bind.
  by destruct (init_from_unet _ _ ∅ ∅ ∅ h) as [h1 [[[init' zp'] fr']|e]].
Qed.

Lemma load_controlnet_from_unet_ok {A} `{Scalar A} (self : ControlLDM A)
    (h h' : store A) zp fr :
  facade_wf h self →
  load_controlnet_from_unet self h = (h', Ok (zp, fr)) →
  (∀ l, l ∈ dom h → l ∉ owned (controlnet self) → h' !! l = h !! l) ∧
  (∀ key this, (key, this) ∈ state_dict (controlnet self) →
     resolved h h' (state_dict (unet self)) key this this) ∧
  (∀ k, k ∈ zp ↔ ∃ this target, (k, this) ∈ state_dict (controlnet self) ∧
          assoc k (state_dict (unet self)) = Some target ∧
          t_shape this ≠ t_shape target) ∧
  (∀ k, k ∈ fr ↔ k ∈ (state_dict (controlnet self)).*1 ∧
          assoc k (state_dict (unet self)) = None).
Proof.
  intros Hwf Hrun. unfold load_controlnet_from_unet in Hrun.
  apply facade_wf_controlnet in Hwf as (Hk & Hnd & Hc & Hu & Hdis).
  apply st_bind_ok_inv in Hrun as (h1 & [[init' zp'] fr'] & Hl & Hrun).
  apply st_bind_ok_inv in Hrun as (h2 & [ms un] & Hld & [= <- <- <-]).
  apply init_from_unet_ok in Hl as (Hsub & Hother & Hkeys & Hzp & Hfr); [|done..].
  pose proof (load_state_dict_store (controlnet self) init' true h1) as Hst.
  rewrite Hld in Hst. simpl in Hst. subst h2.
  assert (∀ k' c, init' !! k' = Some c → t_loc c ∉ owned (controlnet self)) as Hsep.
  { intros k' c Hc' Hin.
    destruct (decide (k' ∈ (state_dict (controlnet self)).*1)) as [Hk'|Hk'];
      [|by rewrite Hother in Hc'].
    apply elem_of_keys in Hk' as (p & Hp).
    destruct (Hkeys k' p Hp) as (c' & Hc'' & Hf & _).
    assert (c' = c) as -> by congruence. apply Hf.
    apply list_elem_of_fmap in Hin as ([k2 p2] & -> & Hin2).
    by apply (proj1 (Forall_forall _ _) Hc (k2, p2)). }
  split; [|split; [|split]].
  - intros l Hl Hn. rewrite load_params_frame by done.
    apply elem_of_dom in Hl as [d Hd]. by rewrite Hd, (lookup_weaken _ _ _ _ Hd Hsub).
  - intros key this Hin. destruct (Hkeys key this Hin) as (c & Hic & Hf & Hd & Hsh & Hr).
    eapply resolved_transfer; [exact Hr|].
    unfold deref, read. rewrite (load_params_lookup _ _ _ key this Hnd Hsep Hin), Hic.
    rewrite decide_True by done. simpl. by rewrite Hsh.
  - intros k. rewrite Hzp. set_solver.
  - intros k. rewrite Hfr. set_solver.
Qed.

(** ** The checkpoint adapter *)

Lemma collect_init_cons {A} prefix sd key p rest init used missing (h : store A) :
  collect_init prefix sd ((key, p) :: rest) init used missing h =
    match sd !! target_key prefix key with
    | None => collect_init prefix sd rest init used ({[target_key prefix key]} ∪ missing) h
    | Some t =>
        let '(h1, c) := clone t h in
        collect_init prefix sd rest (<[key := c]> init)
          ({[target_key prefix key]} ∪ used) missing h1
    end.
Proof. done. Qed.

(** What the loop over [scratch_sd] leaves in [init_sd], [used] and
    [missing]. *)
Lemma collect_init_spec {A} prefix sd scratch :
  ∀ init used missing (h h1 : store A) init' used' missing',
  collect_init prefix sd scratch init used missing h = (h1, (init', used', missing')) →
  NoDup scratch.*1 →
  (∀ k t, sd !! k = Some t → t_loc t ∈ dom h) →
  h ⊆ h1 ∧
  (∀ k, k ∉ scratch.*1 → init' !! k = init !! k) ∧
  (∀ key, key ∈ scratch.*1 →
     match sd !! target_key prefix key with
     | Some t => ∃ c, init' !! key = Some c ∧ (t_loc c ∉ dom h) ∧
                      t_shape c = t_shape t ∧ h1 !! t_loc c = Some (read h (t_loc t))
     | None => init' !! key = init !! key
     end) ∧
  (∀ tk, tk ∈ used' ↔ tk ∈ used ∨
     ∃ key, key ∈ scratch.*1 ∧ tk = target_key prefix key ∧ is_Some (sd !! tk)) ∧
  (∀ tk, tk ∈ missing' ↔ tk ∈ missing ∨
     ∃ key, key ∈ scratch.*1 ∧ tk = target_key prefix key ∧ sd !! tk = None).
Proof.
  induction scratch as [|[key p] rest IH];
    intros init used missing h h1 init' used' missing' Hrun Hnd Hck.
  { injection Hrun as <- <- <- <-. split; [done|]. split; [done|].
    split; [by intros ? ?%elem_of_nil|].
    split; intros tk; (split; [by left|]); by intros [?|(? & ?%elem_of_nil & _)]. }
  rewrite collect_init_cons in Hrun.
  change (((key, p) :: rest).*1) with (key :: rest.*1) in *.
  apply NoDup_cons in Hnd as [Hkey Hnd].
  destruct (sd !! target_key prefix key) as [t|] eqn:Hsd.
  - destruct (clone t h) as [ha c] eqn:Hc.
    apply clone_spec in Hc as (Hf & Hsub & Hshc & Hl & Hdom).
    assert (dom h ⊆ dom ha) as Hdsub by by apply subseteq_dom.
    apply IH in Hrun as (Hsub' & Hother & Hkeys & Hused & Hmiss); [|done|]; cycle 1.
    { intros k t' Hk. apply Hdsub. by eapply Hck. }
    split; [by etrans|]. split; [|split; [|split]].
    + intros k [Hne Hk]%not_elem_of_cons. rewrite Hother by done.
      by rewrite lookup_insert_ne.
    + intros k [->|Hk]%elem_of_cons.
      * rewrite Hsd. exists c. rewrite Hother by done. rewrite lookup_insert_eq.
        split; [done|]. split; [done|]. split; [done|].
        by apply (lookup_weaken _ _ _ _ Hl Hsub').
      * specialize (Hkeys k Hk).
        destruct (sd !! target_key prefix k) as [t'|] eqn:Hsd'.
        -- destruct Hkeys as (c' & Hc' & Hf' & Hsh' & Hl').
           exists c'. split; [done|]. split; [set_solver|]. split; [done|].
           rewrite Hl'. f_equal. apply read_weaken; [done|]. by eapply Hck.
        -- rewrite Hkeys. apply lookup_insert_ne. by intros ->.
    + intros tk. rewrite Hused, elem_of_union, elem_of_singleton. split.
      * intros [[->|?]|(k & Hk & -> & ?)].
        -- right. exists key. split; [by left|]. split; [done|]. by rewrite Hsd.
        -- by left.
        -- right. exists k. split; [by right|done].
      * intros [?|(k & [->|Hk]%elem_of_cons & -> & ?)]; [by left; right|by left; left|].
        right. eauto.
    + intros tk. rewrite Hmiss. split.
      * intros [?|(k & Hk & -> & ?)]; [by left|]. right. exists k. split; [by right|done].
      * intros [?|(k & [->|Hk]%elem_of_cons & -> & Hn)]; [by left|congruence|].
        right. eauto.
  - apply IH in Hrun as (Hsub' & Hother & Hkeys & Hused & Hmiss); [|done..].
    split; [done|]. split; [|split; [|split]].
    + intros k [Hne Hk]%not_elem_of_cons. by apply Hother.
    + intros k [->|Hk]%elem_of_cons; [|by apply Hkeys].
      rewrite Hsd. by apply Hother.
    + intros tk. rewrite Hused. split.
      * intros [?|(k & Hk & -> & ?)]; [by left|]. right. exists k. split; [by right|done].
      * intros [?|(k & [->|Hk]%elem_of_cons & -> & Hs)]; [by left| |].
        -- rewrite Hsd in Hs. by destruct Hs.
        -- right. eauto.
    + intros tk. rewrite Hmiss, elem_of_union, elem_of_singleton. split.
      * intros [[->|?]|(k & Hk & -> & ?)].
        -- right. exists key. split; [by left|done].
        -- by left.
        -- right. exists k. split; [by right|done].
      * intros [?|(k & [->|Hk]%elem_of_cons & -> & ?)]; [by left; right|by left; left|].
        right. eauto.
Qed.

Lemma load_params_dom_sub {A} sd init (h : store A) : dom h ⊆ dom (load_params sd init h).
Proof.
  revert h. induction sd as [|[k p] sd IH]; intros h; [done|]. simpl.
  destruct (init !! k) as [inp|]; [|done]. case_decide; [|done].
  etrans; [|apply IH]. unfold copy_. rewrite dom_insert. set_solver.
Qed.

Lemma load_modules_cons {A} (self : ControlLDM A) name rest sd used missing (h : store A) :
  load_modules self (name :: rest) sd used missing h =
    let '(h1, (init_sd, used1, missing1)) :=
      collect_init (module_map name) sd (state_dict (get_module self name)) ∅ used missing h in
    match load_state_dict (get_module self name) init_sd false h1 with
    | (h2, Ok _) => load_modules self rest sd used1 missing1 h2
    | (h2, Raise e) => (h2, Raise e)
    end.
Proof. done. Qed.

(** One sub-network: the non-strict load fails on a size mismatch only. *)
Lemma load_module_is_ok {A} prefix sd m used missing (h h1 : store A) init' used1 missing1 :
  collect_init prefix sd (state_dict m) ∅ used missing h = (h1, (init', used1, missing1)) →
  NoDup (state_dict m).*1 →
  (∀ k t, sd !! k = Some t → t_loc t ∈ dom h) →
  is_ok (load_state_dict m init' false h1).2 = true ↔
  ∀ key p t, (key, p) ∈ state_dict m → sd !! target_key prefix key = Some t →
    t_shape t = t_shape p.
Proof.
  intros Hcol Hnd Hck.
  apply collect_init_spec in Hcol as (_ & _ & Hkeys & _); [|done..].
  rewrite load_state_dict_ok_iff, size_mismatches_nil. split.
  - intros [Hall _] key p t Hin Ht.
    specialize (Hkeys key (list_elem_of_fmap_2 fst _ _ Hin)). simpl in Hkeys.
    rewrite Ht in Hkeys. destruct Hkeys as (c & Hc & _ & Hsh & _).
    rewrite <-Hsh. by eapply Hall.
  - intros Hall. split; [|done]. intros key p inp Hin Hk.
    specialize (Hkeys key (list_elem_of_fmap_2 fst _ _ Hin)). simpl in Hkeys.
    destruct (sd !! target_key prefix key) as [t|] eqn:Ht.
    + destruct Hkeys as (c & Hc & _ & Hsh & _). simplify_eq. rewrite Hsh. by eapply Hall.
    + by rewrite Hkeys in Hk.
Qed.

(** One sub-network: the store after the load. *)
Lemma load_module_store {A} prefix sd m used missing (h h1 : store A) init' used1 missing1 :
  collect_init prefix sd (state_dict m) ∅ used missing h = (h1, (init', used1, missing1)) →
  NoDup (state_dict m).*1 → NoDup (owned m) →
  (∀ l, l ∈ owned m → l ∈ dom h) →
  (∀ k t, sd !! k = Some t → t_loc t ∈ dom h) →
  let h2 := load_params (state_dict m) init' h1 in
  dom h ⊆ dom h2 ∧
  (∀ l, l ∈ dom h → l ∉ owned m → h2 !! l = h !! l) ∧
  (∀ key p, (key, p) ∈ state_dict m →
     match sd !! target_key prefix key with
     | Some t => t_shape t = t_shape p → h2 !! t_loc p = Some (read h (t_loc t))
     | None => h2 !! t_loc p = h !! t_loc p
     end).
Proof.
  intros Hcol Hnd Hown Hdom Hck h2.
  apply collect_init_spec in Hcol as (Hsub & Hother & Hkeys & _); [|done..].
  assert (∀ k' c, init' !! k' = Some c → t_loc c ∉ owned m) as Hsep.
  { intros k' c Hc Hin.
    destruct (decide (k' ∈ (state_dict m).*1)) as [Hk'|Hk']; [|by rewrite Hother in Hc].
    specialize (Hkeys k' Hk'). destruct (sd !! target_key prefix k') as [t|].
    - destruct Hkeys as (c' & Hc' & Hf & _). assert (c' = c) as -> by congruence.
      by apply Hf, Hdom.
    - by rewrite Hkeys in Hc. }
  assert (∀ l, l ∈ dom h → h1 !! l = h !! l) as Hframe.
  { intros l [d Hd]%elem_of_dom. by rewrite Hd, (lookup_weaken _ _ _ _ Hd Hsub). }
  split; [|split].
  - etrans; [by apply subseteq_dom|]. apply load_params_dom_sub.
  - intros l Hl Hn. unfold h2. rewrite load_params_frame by done. by apply Hframe.
  - intros key p Hin. unfold h2.
    rewrite (load_params_lookup _ _ _ key p Hown Hsep Hin).
    assert (t_loc p ∈ dom h) as Hp.
    { apply Hdom. apply (list_elem_of_fmap_2 (λ kp : string * tensor, t_loc kp.2) _ _ Hin). }
    specialize (Hkeys key (list_elem_of_fmap_2 fst _ _ Hin)). simpl in Hkeys.
    destruct (sd !! target_key prefix key) as [t|] eqn:Ht.
    + destruct Hkeys as (c & -> & _ & Hsh & Hl). intros Hs.
      rewrite decide_True by congruence. unfold read. by rewrite Hl.
    + rewrite Hkeys, lookup_empty. by apply Hframe.
Qed.

Lemma modules_wf_tail {A} (h h2 : store A) self sd name rest :
  modules_wf h self sd (name :: rest) → dom h ⊆ dom h2 →
  modules_wf h2 self sd rest.
Proof.
  intros (Hnd & Hmod & Hdis & Hck) Hsub. apply NoDup_cons in Hnd as [_ Hnd].
  split; [done|]. split; [|split].
  - intros n Hn. destruct (Hmod n) as (? & ? & ?); [by right|]. set_solver.
  - intros n1 n2 l H1 H2. apply Hdis; by right.
  - intros k t Hk. destruct (Hck k t Hk) as [? Hno]. split; [set_solver|].
    intros n Hn. apply Hno. by right.
Qed.

(** The loop over [modules] returns unless a checkpoint tensor has a shape
    other than the parameter it is for. *)
Lemma load_modules_is_ok {A} (self : ControlLDM A) sd modules :
  ∀ used missing (h : store A),
  modules_wf h self sd modules →
  is_ok (load_modules self modules sd used missing h).2 = true ↔
  ∀ name key p t, name ∈ modules → (key, p) ∈ state_dict (get_module self name) →
    sd !! target_key (module_map name) key = Some t → t_shape t = t_shape p.
Proof.
  induction modules as [|name rest IH]; intros used missing h Hwf.
  { split; [|done]. by intros _ ???? ?%elem_of_nil. }
  rewrite load_modules_cons.
  destruct (collect_init _ sd _ ∅ used missing h) as [h1 [[init' used1] missing1]] eqn:Hcol.
  pose proof Hwf as (Hnd & Hmod & Hdis & Hck).
  destruct (Hmod name) as (Hk & Hown & Hdom); [by left|].
  pose proof (load_module_is_ok _ _ _ _ _ _ _ _ _ _ Hcol Hk (λ k t Hkt, proj1 (Hck k t Hkt)))
    as Hstep.
  pose proof (load_module_store _ _ _ _ _ _ _ _ _ _ Hcol Hk Hown Hdom
                (λ k t Hkt, proj1 (Hck k t Hkt))) as (Hsub & _).
  pose proof (load_state_dict_store (get_module self name) init' false h1) as Hst.
  destruct (load_state_dict (get_module self name) init' false h1) as [h2 [r|e]];
    simpl in Hst, Hstep; subst h2.
  - rewrite IH by (by eapply modules_wf_tail). split.
    + intros Hall n key p t [->|Hn]%elem_of_cons; [|by apply Hall].
      by apply Hstep.
    + intros Hall n key p t Hn. apply Hall. by right.
  - simpl. split; [done|]. intros Hall. apply Hstep. intros key p t. apply Hall. by left.
Qed.

(** The store and the two sets when the loop over [modules] is left. *)
Lemma load_modules_ok {A} (self : ControlLDM A) sd modules :
  ∀ used missing (h h' : store A) used' missing',
  load_modules self modules sd used missing h = (h', Ok (used', missing')) →
  modules_wf h self sd modules →
  dom h ⊆ dom h' ∧
  (∀ l, l ∈ dom h → (∀ name, name ∈ modules → l ∉ owned (get_module self name)) →
     h' !! l = h !! l) ∧
  (∀ name key p, name ∈ modules → (key, p) ∈ state_dict (get_module self name) →
     match sd !! target_key (module_map name) key with
     | Some t => t_shape t = t_shape p ∧ h' !! t_loc p = Some (read h (t_loc t))
     | None => h' !! t_loc p = h !! t_loc p
     end) ∧
  (∀ tk, tk ∈ used' ↔ tk ∈ used ∨
     ∃ name key, name ∈ modules ∧ key ∈ (state_dict (get_module self name)).*1 ∧
       tk = target_key (module_map name) key ∧ is_Some (sd !! tk)) ∧
  (∀ tk, tk ∈ missing' ↔ tk ∈ missing ∨
     ∃ name key, name ∈ modules ∧ key ∈ (state_dict (get_module self name)).*1 ∧
       tk = target_key (module_map name) key ∧ sd !! tk = None).
Proof.
  induction modules as [|name rest IH]; intros used missing h h' used' missing' Hrun Hwf.
  { injection Hrun as <- <- <-. split; [done|]. split; [done|].
    split; [by intros ??? ?%elem_of_nil|].
    split; intros tk; (split; [by left|]); by intros [?|(? & ? & ?%elem_of_nil & _)]. }
  rewrite load_modules_cons in Hrun.
  destruct (collect_init _ sd _ ∅ used missing h) as [h1 [[init' used1] missing1]] eqn:Hcol.
  pose proof Hwf as (Hnd & Hmod & Hdis & Hck).
  apply NoDup_cons in Hnd as [Hname Hnd].
  destruct (Hmod name) as (Hk & Hown & Hdom); [by left|].
  pose proof (load_module_is_ok _ _ _ _ _ _ _ _ _ _ Hcol Hk (λ k t Hkt, proj1 (Hck k t Hkt)))
    as Hstep.
  pose proof (load_module_store _ _ _ _ _ _ _ _ _ _ Hcol Hk Hown Hdom
                (λ k t Hkt, proj1 (Hck k t Hkt))) as (Hsub & Hframe & Hent).
  apply collect_init_spec in Hcol as (_ & _ & _ & Hused & Hmiss);
    [|done|by intros k t Hkt; apply (Hck k t Hkt)].
  pose proof (load_state_dict_store (get_module self name) init' false h1) as Hst.
  destruct (load_state_dict (get_module self name) init' false h1) as [h2 [r|e]];
    [|done]. simpl in Hst, Hstep. subst h2.
  set (h2 := load_params (state_dict (get_module self name)) init' h1) in *.
  apply IH in Hrun as (Hsub' & Hframe' & Hent' & Hused' & Hmiss');
    [|by eapply modules_wf_tail].
  assert (∀ n key p, n ∈ rest → (key, p) ∈ state_dict (get_module self n) →
            t_loc p ∈ dom h ∧ t_loc p ∉ owned (get_module self name)) as Hrest.
  { intros n key p Hn Hin.
    assert (t_loc p ∈ owned (get_module self n)) as Hp
      by apply (list_elem_of_fmap_2 (λ kp : string * tensor, t_loc kp.2) _ _ Hin).
    destruct (Hmod n) as (_ & _ & Hd); [by right|]. split; [by apply Hd|].
    apply (Hdis n name); [by right|by left|by intros ->|done]. }
  split; [by etrans|]. split; [|split; [|split]].
  - intros l Hl Hno. rewrite Hframe'.
    + apply Hframe; [done|]. apply Hno. by left.
    + by apply Hsub.
    + intros n Hn. apply Hno. by right.
  - intros n key p [->|Hn]%elem_of_cons Hin.
    + assert (t_loc p ∈ owned (get_module self name)) as Hp
        by apply (list_elem_of_fmap_2 (λ kp : string * tensor, t_loc kp.2) _ _ Hin).
      specialize (Hent key p Hin).
      assert (h' !! t_loc p = h2 !! t_loc p) as ->.
      { apply Hframe'; [apply Hsub; by apply Hdom|].
        intros n Hn. apply (Hdis name n); [by left|by right|by intros ->|done]. }
      destruct (sd !! target_key (module_map name) key) as [t|] eqn:Ht; [|done].
      assert (t_shape t = t_shape p) as Hs by by eapply (proj1 Hstep).
      split; [done|]. by apply Hent.
    + specialize (Hent' n key p Hn Hin). destruct (Hrest n key p Hn Hin) as [Hpd Hpn].
      destruct (sd !! target_key (module_map n) key) as [t|] eqn:Ht.
      * destruct Hent' as [Hs ->]. split; [done|]. f_equal. unfold read.
        destruct (Hck _ _ Ht) as [Htd Htn]. rewrite Hframe; [done|done|].
        apply Htn. by left.
      * rewrite Hent'. by apply Hframe.
  - intros tk. rewrite Hused', Hused. split.
    + intros [[?|(key & ? & ? & ?)]|(n & key & ? & ?)]; [by left| |].
      * right. exists name, key. split; [by left|done].
      * right. exists n, key. split; [by right|done].
    + intros [?|(n & key & [->|Hn]%elem_of_cons & ?)]; [by left; left| |].
      * left; right. eauto.
      * right. eauto.
  - intros tk. rewrite Hmiss', Hmiss. split.
    + intros [[?|(key & ? & ? & ?)]|(n & key & ? & ?)]; [by left| |].
      * right. exists name, key. split; [by left|done].
      * right. exists n, key. split; [by right|done].
    + intros [?|(n & key & [->|Hn]%elem_of_cons & ?)]; [by left; left| |].
      * left; right. eauto.
      * right. eauto.
Qed.

Lemma facade_modules_wf {A} (h : store A) self sd :
  facade_wf h self → checkpoint_wf h self sd →
  modules_wf h self sd [Unet; Vae; Clip].
Proof.
  intros (Hnd & [Hku Hu] & [Hkv Hv] & [Hkc Hc] & _) Hck.
  unfold all_owned in Hnd.
  apply NoDup_app in Hnd as (Hnu & Hdu & Hnd).
  apply NoDup_app in Hnd as (Hnv & Hdv & Hnd).
  apply NoDup_app in Hnd as (Hnc & _ & _).
  assert (∀ m, Forall (λ kp, tensor_ok h kp.2) (state_dict m) →
               ∀ l, l ∈ owned m → l ∈ dom h) as Hdom.
  { intros m Hall l ([k p] & -> & Hin)%list_elem_of_fmap.
    by apply tensor_ok_dom, (proj1 (Forall_forall _ _) Hall (k, p)). }
  split; [|split; [|split]].
  - repeat constructor; set_solver.
  - intros [] _; simpl; eauto.
  - intros n1 n2 l _ _ Hne H1 H2.
    destruct n1, n2; try done; simpl in *.
    + apply (Hdu l H1). rewrite !elem_of_app. eauto.
    + apply (Hdu l H1). rewrite !elem_of_app. eauto.
    + apply (Hdu l H2). rewrite !elem_of_app. eauto.
    + apply (Hdv l H1). rewrite !elem_of_app. eauto.
    + apply (Hdu l H2). rewrite !elem_of_app. eauto.
    + apply (Hdv l H2). rewrite !elem_of_app. eauto.
  - intros k t Hk. destruct (Hck k t Hk) as [Hok Hno]. split; [by apply tensor_ok_dom|].
    intros n _ Hin. apply Hno. unfold all_owned. rewrite !elem_of_app.
    destruct n; simpl in Hin; eauto.
Qed.

(** ** Freezing *)

Lemma state_dict_freeze m : state_dict (freeze m) = state_dict m.
Proof.
  unfold state_dict, freeze, disable_grad, set_train_attr, eval, call_train.
  destruct (m_train m); simpl; rewrite <-list_fmap_compose; apply list_fmap_ext;
    intros i [k e] _; simpl; by destruct (e_kind e).
Qed.

Lemma freeze_frozen m : mode_consistent m → frozen (freeze m).
Proof.
  intros Hc. unfold frozen, freeze, disable_grad, set_train_attr, eval, call_train.
  destruct (m_train m) eqn:Ht; simpl.
  - split; [done|]. split; [done|].
    intros k e ([k' e'] & Heq & _)%list_elem_of_fmap. injection Heq as -> ->.
    destruct (e_kind e') eqn:Ek; [done|]. by rewrite Ek.
  - split; [by apply Hc|]. split; [done|].
    intros k e ([k' e'] & Heq & _)%list_elem_of_fmap. injection Heq as -> ->.
    destruct (e_kind e') eqn:Ek; [done|]. by rewrite Ek.
Qed.

Lemma freeze_modules_get {A} (self : ControlLDM A) name :
  get_module (freeze_modules self [Vae; Clip; Unet]) name = freeze (get_module self name).
Proof. by destruct name. Qed.

(** [train] on a frozen module changes nothing, whatever the arguments. *)
Lemma call_train_frozen m args : frozen m → (call_train m args).1 = m.
Proof.
  intros (_ & Ht & _). unfold call_train. rewrite Ht. by destruct args as [|? [|??]].
Qed.

Lemma set_module_get_same {A} (self : ControlLDM A) name :
  ∀ name', get_module (set_module self name (get_module self name)) name'
           = get_module self name'.
Proof. intros name'. by destruct name, name'. Qed.

Lemma run_call_frozen {A} (self : ControlLDM A) c :
  (∀ name, frozen (get_module self name)) →
  ∀ name, get_module (run_call self c) name = get_module self name.
Proof.
  intros Hf name. destruct c as [mode| |n args|n]; simpl.
  - destruct name; simpl; apply call_train_frozen;
      [apply (Hf Unet)|apply (Hf Vae)|apply (Hf Clip)].
  - destruct name; simpl; apply call_train_frozen;
      [apply (Hf Unet)|apply (Hf Vae)|apply (Hf Clip)].
  - rewrite call_train_frozen by done. apply set_module_get_same.
  - unfold eval. rewrite call_train_frozen by done. apply set_module_get_same.
Qed.

Lemma run_calls_frozen {A} (self : ControlLDM A) cs :
  (∀ name, frozen (get_module self name)) →
  ∀ name, get_module (run_calls self cs) name = get_module self name.
Proof.
  revert self. induction cs as [|c cs IH]; intros self Hf name; [done|].
  unfold run_calls. simpl. fold (run_calls (run_call self c) cs).
  rewrite IH; [by apply run_call_frozen|].
  intros n. by rewrite run_call_frozen.
Qed.

(** [mode_consistent] holds of a module whose [train] was never replaced,
    and every modelled operation keeps it. *)
Lemma mode_consistent_default m : m_train m = TrainDefault → mode_consistent m.
Proof. intros Ht Hd. congruence. Qed.

Lemma frozen_mode_consistent m : frozen m → mode_consistent m.
Proof. by intros (Ht & _ & _) _. Qed.

Lemma call_train_mode_consistent m args :
  mode_consistent m → mode_consistent (call_train m args).1.
Proof.
  unfold mode_consistent, call_train. intros Hc.
  destruct (m_train m) eqn:Ht; destruct args as [|? [|??]]; simpl;
    intros Hd; first [congruence|by apply Hc].
Qed.

Lemma run_call_mode_consistent {A} (self : ControlLDM A) c :
  (∀ n, mode_consistent (get_module self n)) →
  ∀ n, mode_consistent (get_module (run_call self c) n).
Proof.
  intros Hc n. destruct c as [mode| |n' args|n']; simpl.
  - destruct n; simpl; apply call_train_mode_consistent;
      [apply (Hc Unet)|apply (Hc Vae)|apply (Hc Clip)].
  - destruct n; simpl; apply call_train_mode_consistent;
      [apply (Hc Unet)|apply (Hc Vae)|apply (Hc Clip)].
  - destruct n, n'; simpl; first [apply call_train_mode_consistent|idtac];
      first [apply (Hc Unet)|apply (Hc Vae)|apply (Hc Clip)].
  - unfold eval. destruct n, n'; simpl; first [apply call_train_mode_consistent|idtac];
      first [apply (Hc Unet)|apply (Hc Vae)|apply (Hc Clip)].
Qed.

(** ** The small model is well formed *)

Ltac by_compute := apply (bool_decide_unpack _); vm_compute; exact I.

Ltac solve_wf :=
  unfold facade_wf, module_ok; repeat split;
    first [ by_compute | repeat constructor; vm_compute; reflexivity ].

Lemma ex_facade_wf : facade_wf ex_store ex_self.
Proof. solve_wf. Qed.

Lemma ex_same_facade_wf : facade_wf ex_store ex_self_same.
Proof. solve_wf. Qed.

Lemma ex_narrow_facade_wf : facade_wf ex_store ex_self_narrow.
Proof. solve_wf. Qed.

Lemma ex_load_pretrained_sd_ok :
  is_ok (load_pretrained_sd ex_self ex_sd ex_store).2 = true.
Proof. vm_compute. reflexivity. Qed.

Lemma ex_bootstrap_ok : is_ok (load_controlnet_from_unet ex_self ex_store).2 = true.
Proof. vm_compute. reflexivity. Qed.

Lemma ex_checkpoint_wf : checkpoint_wf ex_store ex_self ex_sd.
Proof.
  intros k t Hk%elem_of_list_to_map_2.
  repeat (apply elem_of_cons in Hk as [[= -> ->]|Hk];
          [split; [vm_compute; reflexivity|by_compute]|]).
  by apply elem_of_nil in Hk.
Qed.

(** * The claims *)

(** ** The ControlNet bootstrapper *)

(** C1. In [load_controlnet_from_unet], a key of the control branch that
    the denoiser declares with another shape ends up holding the
    denoiser's tensor concatenated along dimension 1 with a zero tensor:
    the result has the control branch's declared shape, its first [n]
    channels are the source's ([n] the source's channel count), the other
    channels are zero, and the key is in [keys_zero_padded].  The source
    tensor itself is left as it was. *)
Theorem zero_padded_value {A} `{Scalar A} (self : ControlLDM A) (h h' : store A)
    (zp fr : gset string) (key : string) (this target : tensor) :
  facade_wf h self →
  load_controlnet_from_unet self h = (h', Ok (zp, fr)) →
  (key, this) ∈ state_dict (controlnet self) →
  assoc key (state_dict (unet self)) = Some target →
  t_shape this ≠ t_shape target →
  ∃ oc n d hh w zs,
    t_shape target = [oc; n; hh; w] ∧ t_shape this = [oc; n + d; hh; w] ∧
    zeros [Z.of_nat oc; Z.of_nat d; Z.of_nat hh; Z.of_nat w] = Ok zs ∧
    cat (deref h target) zs 1 = Ok (deref h' this) ∧
    shape (deref h' this) = t_shape this ∧
    (∀ o c y x, o < oc → c < n + d → y < hh → x < w →
       tget (deref h' this) [o; c; y; x] =
         if decide (c < n) then tget (deref h target) [o; c; y; x] else Some s_zero) ∧
    deref h' target = deref h target ∧
    key ∈ zp.
Proof.
  intros Hwf Hrun Hin Ha Hne.
  pose proof (load_controlnet_from_unet_ok self h h' zp fr Hwf Hrun)
    as (Hframe & Hres & Hzp & _).
  pose proof Hwf as (_ & [_ Huok] & _).
  apply facade_wf_controlnet in Hwf as (_ & _ & _ & Hu & Hdis).
  pose proof (assoc_elem_of _ _ _ Ha) as Hinu.
  assert (tensor_ok h target) as Hok
    by apply (proj1 (Forall_forall _ _) Huok (key, target) Hinu).
  destruct (Hres key this Hin) as [tg ? Hs ?|tg oc n d hh w zs Ha' _ Ht Hs Hz Hcat|?];
    [congruence| |congruence].
  assert (tg = target) as -> by congruence.
  exists oc, n, d, hh, w, zs. split; [done|]. split; [done|]. split; [done|].
  split; [done|]. split; [done|]. split; [|split].
  - eapply cat_zeros_channels; eauto. by apply tensor_ok_wf.
  - unfold deref, read. rewrite Hframe; [done|by apply tensor_ok_dom|].
    apply Hdis. apply (list_elem_of_fmap_2 (λ kp : string * tensor, t_loc kp.2) _ _ Hinu).
  - apply Hzp. eauto.
Qed.

Lemma zero_padded_value_witness :
  ∃ h' zp fr,
    load_controlnet_from_unet ex_self ex_store = (h', Ok (zp, fr)) ∧
    tget (deref h' (Tensor 4 [1; 3; 1; 2])) [0; 1; 0; 1] = Some (b32_of_Z 23) ∧
    tget (deref h' (Tensor 4 [1; 3; 1; 2])) [0; 2; 0; 1] = Some s_zero ∧
    "in.weight" ∈ zp.
Proof.
  pose proof ex_bootstrap_ok as Hok.
  destruct (load_controlnet_from_unet ex_self ex_store) as [h' [[zp fr]|e]] eqn:Hrun;
    [clear Hok|discriminate Hok].
  exists h', zp, fr. split; [reflexivity|].
  destruct (zero_padded_value ex_self ex_store h' zp fr "in.weight"
              (Tensor 4 [1; 3; 1; 2]) (Tensor 2 [1; 2; 1; 2]) ex_facade_wf Hrun)
    as (oc & n & d & hh & w & zs & Ht & Hs & _ & _ & _ & Hch & _ & Hzp).
  - by_compute.
  - reflexivity.
  - discriminate.
  - injection Ht as <- <- <- <-. injection Hs as Hd. assert (d = 1) as -> by lia.
    split; [|split; [|exact Hzp]].
    + rewrite (Hch 0 1 0 1) by lia. reflexivity.
    + rewrite (Hch 0 2 0 1) by lia. reflexivity.
Defined.

(** C4. [load_controlnet_from_unet] is all or nothing.  When it returns,
    every key the control branch declares holds a value given by one of
    the three rules (copy, zero padding, own value), and every shape
    mismatch was a channel-only delta.  When it raises, some declared key
    has a shape mismatch outside the channel-only delta, and the store only
    grew: every cell that existed keeps its contents, so no tensor of the
    control branch was touched.  And a declared key with such a mismatch
    makes the operation raise. *)
Theorem bootstrap_all_or_nothing {A} `{Scalar A} (self : ControlLDM A) (h : store A) :
  facade_wf h self →
  (∀ h' zp fr, load_controlnet_from_unet self h = (h', Ok (zp, fr)) →
     (∀ key this, (key, this) ∈ state_dict (controlnet self) →
        resolved h h' (state_dict (unet self)) key this this) ∧
     (∀ key this target, (key, this) ∈ state_dict (controlnet self) →
        assoc key (state_dict (unet self)) = Some target →
        t_shape this ≠ t_shape target →
        channel_only_delta (t_shape this) (t_shape target))) ∧
  (∀ h' e, load_controlnet_from_unet self h = (h', Raise e) →
     h ⊆ h' ∧
     (∀ key this, (key, this) ∈ state_dict (controlnet self) →
        deref h' this = deref h this) ∧
     ∃ key this target, (key, this) ∈ state_dict (controlnet self) ∧
       assoc key (state_dict (unet self)) = Some target ∧
       t_shape this ≠ t_shape target ∧
       ¬ channel_only_delta (t_shape this) (t_shape target)) ∧
  (∀ key this target, (key, this) ∈ state_dict (controlnet self) →
     assoc key (state_dict (unet self)) = Some target →
     t_shape this ≠ t_shape target →
     ¬ channel_only_delta (t_shape this) (t_shape target) →
     ∃ h' e, load_controlnet_from_unet self h = (h', Raise e)).
Proof.
  intros Hwf. pose proof (load_controlnet_from_unet_is_ok self h Hwf) as Hiff.
  split; [|split].
  - intros h' zp fr Hrun. split.
    + by apply (load_controlnet_from_unet_ok self h h' zp fr Hwf Hrun).
    + apply Hiff. by rewrite Hrun.
  - intros h' e Hrun.
    pose proof (load_controlnet_from_unet_raise self h h' e Hwf Hrun) as [Hsub Hex].
    split; [done|]. split; [|done]. intros key this Hin.
    apply deref_weaken; [done|].
    apply facade_wf_controlnet in Hwf as (_ & _ & Hc & _).
    by apply (proj1 (Forall_forall _ _) Hc (key, this)).
  - intros key this target Hin Ha Hne Hnd.
    destruct (load_controlnet_from_unet self h) as [h' [r|e]] eqn:Hrun; [|eauto].
    exfalso. apply Hnd. by apply (proj1 Hiff eq_refl key this target).
Qed.

Lemma bootstrap_all_or_nothing_witness :
  (∃ h' zp fr,
     load_controlnet_from_unet ex_self ex_store = (h', Ok (zp, fr)) ∧
     resolved ex_store h' (state_dict ex_unet) "hint.bias" (Tensor 5 [1]) (Tensor 5 [1])) ∧
  (∃ h' e,
     load_controlnet_from_unet ex_self_narrow ex_store = (h', Raise e) ∧ ex_store ⊆ h').
Proof.
  split.
  - pose proof ex_bootstrap_ok as Hok.
    destruct (load_controlnet_from_unet ex_self ex_store) as [h' [[zp fr]|e]] eqn:Hrun;
      [clear Hok|discriminate Hok].
    exists h', zp, fr. split; [reflexivity|].
    apply (proj1 (bootstrap_all_or_nothing ex_self ex_store ex_facade_wf) h' zp fr Hrun).
    by_compute.
  - destruct (load_controlnet_from_unet ex_self_narrow ex_store) as [h' [r|e]] eqn:Hrun;
      [vm_compute in Hrun; discriminate|].
    exists h', e. split; [reflexivity|].
    apply (proj1 (proj2 (bootstrap_all_or_nothing ex_self_narrow ex_store
                           ex_narrow_facade_wf)) h' e Hrun).
Defined.

(** C7. When every key of the control branch is declared by the denoiser
    with the same shape, [load_controlnet_from_unet] returns, both returned
    sets are empty, and every tensor of the control branch holds the value
    of the denoiser's tensor of that key (which the operation left
    unchanged). *)
Theorem bootstrap_identical_shapes {A} `{Scalar A} (self : ControlLDM A) (h : store A) :
  facade_wf h self →
  (∀ key this, (key, this) ∈ state_dict (controlnet self) →
     ∃ target, assoc key (state_dict (unet self)) = Some target ∧
               t_shape this = t_shape target) →
  ∃ h', load_controlnet_from_unet self h = (h', Ok (∅, ∅)) ∧
    ∀ key this target, (key, this) ∈ state_dict (controlnet self) →
      assoc key (state_dict (unet self)) = Some target →
      deref h' this = deref h' target ∧ deref h' target = deref h target.
Proof.
  intros Hwf Hsame.
  assert (is_ok (load_controlnet_from_unet self h).2 = true) as Hok.
  { apply load_controlnet_from_unet_is_ok; [done|]. intros key this target Hin Ha Hne.
    destruct (Hsame key this Hin) as (tg & Ha' & Hs). congruence. }
  destruct (load_controlnet_from_unet self h) as [h' [[zp fr]|e]] eqn:Hrun; [|done].
  pose proof (load_controlnet_from_unet_ok self h h' zp fr Hwf Hrun)
    as (Hframe & Hres & Hzp & Hfr).
  assert (zp = ∅) as ->.
  { apply leibniz_equiv, elem_of_equiv_empty. intros k (this & tg & Hin & Ha & Hne)%Hzp.
    destruct (Hsame k this Hin) as (tg' & Ha' & Hs). congruence. }
  assert (fr = ∅) as ->.
  { apply leibniz_equiv, elem_of_equiv_empty.
    intros k [(this & Hin)%elem_of_keys Ha]%Hfr.
    destruct (Hsame k this Hin) as (tg' & Ha' & Hs). congruence. }
  exists h'. split; [done|]. intros key this target Hin Ha.
  pose proof Hwf as (_ & [_ Huok] & _).
  apply facade_wf_controlnet in Hwf as (_ & _ & _ & Hu & Hdis).
  pose proof (assoc_elem_of _ _ _ Ha) as Hinu.
  assert (deref h' target = deref h target) as Htg.
  { unfold deref, read. rewrite Hframe; [done| |].
    - by apply (proj1 (Forall_forall _ _) Hu (key, target)).
    - apply Hdis. apply (list_elem_of_fmap_2 (λ kp : string * tensor, t_loc kp.2) _ _ Hinu). }
  split; [|done]. rewrite Htg.
  destruct (Hres key this Hin) as [tg ? Hs Hv|tg oc n d hh w zs Ha' Hne|?]; [|exfalso|congruence].
  - by assert (tg = target) as -> by congruence.
  - destruct (Hsame key this Hin) as (tg' & Ha'' & Hs). congruence.
Qed.

Lemma bootstrap_identical_shapes_witness :
  ∃ h', load_controlnet_from_unet ex_self_same ex_store = (h', Ok (∅, ∅)) ∧
    deref h' (Tensor 3 [2]) = TVal [2] [b32_of_Z 10; b32_of_Z 11].
Proof.
  destruct (bootstrap_identical_shapes ex_self_same ex_store ex_same_facade_wf)
    as (h' & Hrun & Hval).
  - intros key this [[= -> ->]|Hin%elem_of_nil]%elem_of_cons; [|done].
    exists (Tensor 1 [2]). split; reflexivity.
  - exists h'. split; [exact Hrun|].
    destruct (Hval "time.bias" (Tensor 3 [2]) (Tensor 1 [2])) as [-> ->];
      [by_compute|reflexivity|reflexivity].
Defined.

(** C10. The zero-padding branch (lines 81-84), entered for a key whose
    shapes differ, returns a tensor exactly when both shapes have rank 4,
    agree outside dimension 1, and the control branch has strictly more
    channels; a key that violates this makes the whole operation raise. *)
Theorem zero_padding_precondition {A} `{Scalar A} (self : ControlLDM A) (h : store A)
    (key : string) (this target : tensor) :
  (key, this) ∈ state_dict (controlnet self) →
  assoc key (state_dict (unet self)) = Some target →
  t_shape this ≠ t_shape target →
  (∀ h0 : store A, is_ok (pad_with_zeros this target h0).2 = true ↔
                   channel_only_delta (t_shape this) (t_shape target)) ∧
  (¬ channel_only_delta (t_shape this) (t_shape target) →
   ∃ h' e, load_controlnet_from_unet self h = (h', Raise e)).
Proof.
  intros Hin Ha Hne. split; [intros h0; by apply pad_with_zeros_ok_iff|].
  intros Hnd. destruct (load_controlnet_from_unet self h) as [h' [r|e]] eqn:Hrun; [|eauto].
  exfalso. apply Hnd.
  assert (is_ok (load_controlnet_from_unet self h).2 = true) as Hok by by rewrite Hrun.
  apply load_controlnet_from_unet_loop_ok in Hok.
  by apply (proj1 (init_from_unet_is_ok _ _ _ _ _ _) Hok key this target).
Qed.

Lemma zero_padding_precondition_witness :
  channel_only_delta [1; 3; 1; 2] [1; 2; 1; 2] ∧
  ¬ channel_only_delta [1; 1; 1; 2] [1; 2; 1; 2] ∧
  ∃ h' e, load_controlnet_from_unet ex_self_narrow ex_store = (h', Raise e).
Proof.
  split; [|split].
  - apply (proj1 (zero_padding_precondition ex_self ex_store "in.weight"
                    (Tensor 4 [1; 3; 1; 2]) (Tensor 2 [1; 2; 1; 2])
                    ltac:(by_compute) eq_refl ltac:(discriminate)) ex_store).
    reflexivity.
  - intros (_ & _ & _ & a & b & [= <-] & [= <-] & Hlt). lia.
  - apply (proj2 (zero_padding_precondition ex_self_narrow ex_store "in.weight"
                    (Tensor 8 [1; 1; 1; 2]) (Tensor 2 [1; 2; 1; 2])
                    ltac:(by_compute) eq_refl ltac:(discriminate))).
    intros (_ & _ & _ & a & b & [= <-] & [= <-] & Hlt). lia.
Defined.

(** ** The checkpoint adapter *)

Lemma collect_init_used_sub {A} prefix sd scratch :
  ∀ init used missing (h h1 : store A) init' used' missing',
  collect_init prefix sd scratch init used missing h = (h1, (init', used', missing')) →
  used ⊆ dom sd → used' ⊆ dom sd.
Proof.
  induction scratch as [|[key p] rest IH];
    intros init used missing h h1 init' used' missing' Hrun Hsub.
  { by injection Hrun as <- <- <- <-. }
  rewrite collect_init_cons in Hrun.
  destruct (sd !! target_key prefix key) as [t|] eqn:Hsd; [|by eapply IH].
  destruct (clone t h) as [ha c]. eapply IH; [exact Hrun|].
  apply union_subseteq. split; [|done].
  apply singleton_subseteq_l, elem_of_dom. eauto.
Qed.

Lemma load_modules_used_sub {A} (self : ControlLDM A) sd modules :
  ∀ used missing (h h' : store A) used' missing',
  load_modules self modules sd used missing h = (h', Ok (used', missing')) →
  used ⊆ dom sd → used' ⊆ dom sd.
Proof.
  induction modules as [|name rest IH]; intros used missing h h' used' missing' Hrun Hsub.
  { by injection Hrun as <- <- <-. }
  rewrite load_modules_cons in Hrun.
  destruct (collect_init _ sd _ ∅ used missing h) as [h1 [[init' used1] missing1]] eqn:Hcol.
  apply collect_init_used_sub in Hcol; [|done].
  destruct (load_state_dict _ init' false h1) as [h2 [r|e]]; [|done]. by eapply IH.
Qed.

Lemma load_pretrained_sd_inv {A} (self self' : ControlLDM A) sd (h h' : store A)
    unused missing :
  load_pretrained_sd self sd h = (h', self', Ok (unused, missing)) →
  ∃ used, load_modules self [Unet; Vae; Clip] sd ∅ ∅ h = (h', Ok (used, missing)) ∧
          unused = dom sd ∖ used ∧ self' = freeze_modules self [Vae; Clip; Unet].
Proof.
  unfold load_pretrained_sd.
  destruct (load_modules self [Unet; Vae; Clip] sd ∅ ∅ h) as [h1 [[used ms]|e]]; [|done].
  intros [= <- <- <- <-]. eauto.
Qed.

(** C3. The returned [unused] and the set of consumed checkpoint keys are
    disjoint, and together they are the keys of the checkpoint. *)
Theorem unused_consumed_partition {A} (self self' : ControlLDM A)
    (sd : gmap string tensor) (h h' : store A) (unused missing : gset string) :
  load_pretrained_sd self sd h = (h', self', Ok (unused, missing)) →
  ∃ used, consumed_keys self sd h = Ok used ∧
          unused ## used ∧ unused ∪ used = dom sd.
Proof.
  intros (used & Hrun & -> & _)%load_pretrained_sd_inv.
  exists used. unfold consumed_keys. rewrite Hrun. split; [done|].
  apply load_modules_used_sub in Hrun; [|done].
  split; [set_solver|]. apply leibniz_equiv. intros k.
  rewrite elem_of_union, elem_of_difference.
  destruct (decide (k ∈ used)); set_solver.
Qed.

Lemma unused_consumed_partition_witness :
  ∃ h' self' unused missing used,
    load_pretrained_sd ex_self ex_sd ex_store = (h', self', Ok (unused, missing)) ∧
    consumed_keys ex_self ex_sd ex_store = Ok used ∧
    unused ## used ∧ unused ∪ used = dom ex_sd.
Proof.
  pose proof ex_load_pretrained_sd_ok as Hok.
  destruct (load_pretrained_sd ex_self ex_sd ex_store) as [[h' self'] [[unused missing]|e]]
    eqn:Hrun; [clear Hok|discriminate Hok].
  destruct (unused_consumed_partition ex_self self' ex_sd ex_store h' unused missing Hrun)
    as (used & Hc & Hdis & Hun).
  exists h', self', unused, missing, used.
  split; [reflexivity|]. split; [exact Hc|]. split; [exact Hdis|exact Hun].
Defined.

Lemma load_pretrained_sd_state_dict {A} (self : ControlLDM A) name :
  state_dict (get_module (freeze_modules self [Vae; Clip; Unet]) name)
  = state_dict (get_module self name).
Proof. by rewrite freeze_modules_get, state_dict_freeze. Qed.

(** C2. When [load_pretrained_sd] returns, a declared key whose prefixed
    key is in the checkpoint holds the checkpoint tensor's value: same
    shape, same elements.  The parameter is still the tensor it was (the
    value was copied into its own cell), the checkpoint tensor is left
    unchanged, and the two share no cell, so a later write to the
    checkpoint tensor does not reach the parameter. *)
Theorem load_copies_checkpoint_value {A} (self self' : ControlLDM A)
    (sd : gmap string tensor) (h h' : store A) (unused missing : gset string)
    (name : role) (key : string) (p t : tensor) :
  facade_wf h self → checkpoint_wf h self sd →
  load_pretrained_sd self sd h = (h', self', Ok (unused, missing)) →
  (key, p) ∈ state_dict (get_module self name) →
  sd !! target_key (module_map name) key = Some t →
  (key, p) ∈ state_dict (get_module self' name) ∧
  deref h' p = deref h t ∧
  deref h' t = deref h t ∧
  t_loc p ≠ t_loc t ∧
  (∀ d, deref (<[t_loc t := d]> h') p = deref h' p) ∧
  target_key (module_map name) key ∉ unused.
Proof.
  intros Hwf Hck (used & Hrun & -> & ->)%load_pretrained_sd_inv Hin Ht.
  pose proof (facade_modules_wf h self sd Hwf Hck) as Hmwf.
  pose proof (load_modules_ok self sd _ _ _ _ _ _ _ Hrun Hmwf)
    as (Hdom & Hframe & Hent & Hused & _).
  assert (name ∈ [Unet; Vae; Clip]) as Hname by (destruct name; set_solver).
  specialize (Hent name key p Hname Hin). rewrite Ht in Hent. destruct Hent as [Hs Hl].
  destruct Hmwf as (_ & _ & _ & Hsep). destruct (Hsep _ _ Ht) as [Htd Htn].
  assert (t_loc p ≠ t_loc t) as Hne.
  { intros Heq. apply (Htn name Hname). rewrite <-Heq.
    apply (list_elem_of_fmap_2 (λ kp : string * tensor, t_loc kp.2) _ _ Hin). }
  split; [by rewrite load_pretrained_sd_state_dict|].
  split; [unfold deref, read; by rewrite Hl, Hs|].
  split; [unfold deref, read; by rewrite Hframe|].
  split; [done|]. split.
  - intros d. unfold deref, read. by rewrite lookup_insert_ne.
  - rewrite elem_of_difference. intros [_ Hn]. apply Hn, Hused. right.
    exists name, key. split; [done|]. split; [|split; [done|by rewrite Ht]].
    apply (list_elem_of_fmap_2 fst _ _ Hin).
Qed.

Lemma load_copies_checkpoint_value_witness :
  ∃ h' self' unused missing,
    load_pretrained_sd ex_self ex_sd ex_store = (h', self', Ok (unused, missing)) ∧
    deref h' (Tensor 1 [2]) = TVal [2] [b32_of_Z 80; b32_of_Z 81].
Proof.
  pose proof ex_load_pretrained_sd_ok as Hok.
  destruct (load_pretrained_sd ex_self ex_sd ex_store) as [[h' self'] [[unused missing]|e]]
    eqn:Hrun; [clear Hok|discriminate Hok].
  exists h', self', unused, missing. split; [reflexivity|].
  destruct (load_copies_checkpoint_value ex_self self' ex_sd ex_store h' unused missing
              Unet "time.bias" (Tensor 1 [2]) (Tensor 8 [2])
              ex_facade_wf ex_checkpoint_wf Hrun) as (_ & -> & _).
  - by_compute.
  - reflexivity.
  - reflexivity.
Defined.

(** C6. A declared key whose prefixed key is absent from the checkpoint
    does not make [load_pretrained_sd] fail: when every checkpoint tensor
    that is present has the shape of its parameter, the operation returns,
    however many keys are absent; each absent key is in [missing] and its
    parameter keeps the value it had. *)
Theorem missing_keys_not_fatal {A} (self : ControlLDM A)
    (sd : gmap string tensor) (h : store A) :
  facade_wf h self → checkpoint_wf h self sd →
  (∀ name key p t, (key, p) ∈ state_dict (get_module self name) →
     sd !! target_key (module_map name) key = Some t → t_shape t = t_shape p) →
  ∃ h' self' unused missing,
    load_pretrained_sd self sd h = (h', self', Ok (unused, missing)) ∧
    ∀ name key p, (key, p) ∈ state_dict (get_module self name) →
      sd !! target_key (module_map name) key = None →
      target_key (module_map name) key ∈ missing ∧
      (key, p) ∈ state_dict (get_module self' name) ∧
      deref h' p = deref h p.
Proof.
  intros Hwf Hck Hshape.
  pose proof (facade_modules_wf h self sd Hwf Hck) as Hmwf.
  assert (is_ok (load_modules self [Unet; Vae; Clip] sd ∅ ∅ h).2 = true) as Hok.
  { apply load_modules_is_ok; [done|]. intros name key p t _. apply Hshape. }
  unfold load_pretrained_sd.
  destruct (load_modules self [Unet; Vae; Clip] sd ∅ ∅ h) as [h' [[used missing]|e]] eqn:Hrun;
    [|done].
  exists h', (freeze_modules self [Vae; Clip; Unet]), (dom sd ∖ used), missing.
  split; [done|]. intros name key p Hin Hnone.
  pose proof (load_modules_ok self sd _ _ _ _ _ _ _ Hrun Hmwf)
    as (_ & _ & Hent & _ & Hmiss).
  assert (name ∈ [Unet; Vae; Clip]) as Hname by (destruct name; set_solver).
  specialize (Hent name key p Hname Hin). rewrite Hnone in Hent.
  split; [|split].
  - apply Hmiss. right. exists name, key. split; [done|]. split; [|done].
    apply (list_elem_of_fmap_2 fst _ _ Hin).
  - by rewrite load_pretrained_sd_state_dict.
  - unfold deref, read. by rewrite Hent.
Qed.

Lemma missing_keys_not_fatal_witness :
  ∃ h' self' unused missing,
    load_pretrained_sd ex_self ex_sd ex_store = (h', self', Ok (unused, missing)) ∧
    "model.diffusion_model.in.weight" ∈ missing ∧
    deref h' (Tensor 2 [1; 2; 1; 2]) = deref ex_store (Tensor 2 [1; 2; 1; 2]).
Proof.
  destruct (missing_keys_not_fatal ex_self ex_sd ex_store ex_facade_wf ex_checkpoint_wf)
    as (h' & self' & unused & missing & Hrun & Hmiss).
  - intros name key p t Hin Ht.
    destruct name; vm_compute in Hin;
      repeat (apply elem_of_cons in Hin as [[= -> ->]|Hin];
              [vm_compute in Ht; first [discriminate|by injection Ht as <-]|]);
      by apply elem_of_nil in Hin.
  - exists h', self', unused, missing. split; [exact Hrun|].
    destruct (Hmiss Unet "in.weight" (Tensor 2 [1; 2; 1; 2])) as (Hm & _ & Hv).
    + by_compute.
    + reflexivity.
    + split; [exact Hm|exact Hv].
Defined.

(** C5. After [load_pretrained_sd] returns, no parameter of the unet, the
    vae or the clip sub-network requires a gradient, each of the three is
    in evaluation mode, and whatever [train] or [eval] calls follow, on the
    facade or on the sub-network with any arguments, the sub-network stays
    as it is: in evaluation mode. *)
Theorem load_freezes_submodules {A} (self self' : ControlLDM A)
    (sd : gmap string tensor) (h h' : store A) (unused missing : gset string)
    (name : role) :
  (∀ n, mode_consistent (get_module self n)) →
  load_pretrained_sd self sd h = (h', self', Ok (unused, missing)) →
  (∀ k e, (k, e) ∈ m_state (get_module self' name) → e_kind e = KParam →
     e_requires_grad e = false) ∧
  m_training (get_module self' name) = false ∧
  ∀ cs : list mode_call,
    get_module (run_calls self' cs) name = get_module self' name ∧
    m_training (get_module (run_calls self' cs) name) = false.
Proof.
  intros Hc (used & _ & _ & ->)%load_pretrained_sd_inv.
  assert (∀ n, frozen (get_module (freeze_modules self [Vae; Clip; Unet]) n)) as Hf.
  { intros n. rewrite freeze_modules_get. apply freeze_frozen, Hc. }
  destruct (Hf name) as (Ht & _ & Hg). split; [done|]. split; [done|].
  intros cs. by rewrite run_calls_frozen.
Qed.

Lemma load_freezes_submodules_witness :
  ∃ h' self' unused missing,
    load_pretrained_sd ex_self ex_sd ex_store = (h', self', Ok (unused, missing)) ∧
    m_training (get_module (run_calls self' [FacadeTrain true; SubTrain Unet [true]]) Unet)
    = false.
Proof.
  pose proof ex_load_pretrained_sd_ok as Hok.
  destruct (load_pretrained_sd ex_self ex_sd ex_store) as [[h' self'] [[unused missing]|e]]
    eqn:Hrun; [clear Hok|discriminate Hok].
  exists h', self', unused, missing. split; [reflexivity|].
  apply (load_freezes_submodules ex_self self' ex_sd ex_store h' unused missing Unet).
  - intros []; intros [=].
  - exact Hrun.
Defined.

(** ** The VAE boundary *)

Lemma tdiv_tmul_cancel {A} `{Scalar A} (raw : tval A) (s : A) :
  (∀ v, v ∈ data raw → s_div (s_mul v s) s = v) → tdiv (tmul raw s) s = raw.
Proof.
  intros Hc. destruct raw as [sh d]. unfold tdiv, tmul. simpl in *. f_equal.
  rewrite <-list_fmap_compose. rewrite <-(list_fmap_id d) at 2.
  apply list_fmap_ext. intros i v Hv. simpl. apply Hc.
  apply list_elem_of_lookup. eauto.
Qed.

(** C8, as the code has it.  [vae_encode] returns the output of the
    (tiled or plain) encoder times the scale; [vae_decode] runs the (tiled
    or plain) decoder on its input divided by the scale; so decoding an
    encoded image runs the decoder on [(raw * scale) / scale], whatever the
    tiling flags.  That is the decoder on [raw] itself whenever
    [(v * scale) / scale = v] for the elements [v] of [raw]. *)
Theorem vae_scale_roundtrip {A G} `{Scalar A}
    (make_tiled_fn : net_fn A G → Z → Z → scale_type → Z → Z → net_fn A G)
    (net : AutoencoderKL A G) (self : ControlLDM A) (image raw : tval A)
    (sample tiled_e tiled_d : bool) (size_e stride_e size_d stride_d : Z) (g g1 : G) :
  encode_model make_tiled_fn net sample tiled_e size_e stride_e image g = (g1, Ok raw) →
  vae_encode make_tiled_fn net self image sample tiled_e size_e stride_e g
    = (g1, Ok (tmul raw (scale_factor self))) ∧
  (∀ z, vae_decode make_tiled_fn net self z tiled_d size_d stride_d
        = decode_model make_tiled_fn net tiled_d size_d stride_d
            (tdiv z (scale_factor self))) ∧
  (z ← vae_encode make_tiled_fn net self image sample tiled_e size_e stride_e;
   vae_decode make_tiled_fn net self z tiled_d size_d stride_d) g
    = decode_model make_tiled_fn net tiled_d size_d stride_d
        (tdiv (tmul raw (scale_factor self)) (scale_factor self)) g1 ∧
  ((∀ v, v ∈ data raw → s_div (s_mul v (scale_factor self)) (scale_factor self) = v) →
   (z ← vae_encode make_tiled_fn net self image sample tiled_e size_e stride_e;
    vae_decode make_tiled_fn net self z tiled_d size_d stride_d) g
     = decode_model make_tiled_fn net tiled_d size_d stride_d raw g1).
Proof.
  intros Henc.
  assert (vae_encode make_tiled_fn net self image sample tiled_e size_e stride_e g
          = (g1, Ok (tmul raw (scale_factor self)))) as Hve.
  { unfold vae_encode, mbind, st_bind. by rewrite Henc. }
  split; [done|]. split; [done|].
  assert ((z ← vae_encode make_tiled_fn net self image sample tiled_e size_e stride_e;
           vae_decode make_tiled_fn net self z tiled_d size_d stride_d) g
          = decode_model make_tiled_fn net tiled_d size_d stride_d
              (tdiv (tmul raw (scale_factor self)) (scale_factor self)) g1) as Hrt.
  { unfold mbind at 1, st_bind at 1. by rewrite Hve. }
  split; [done|]. intros Hc. by rewrite Hrt, tdiv_tmul_cancel.
Qed.

Lemma vae_scale_roundtrip_witness :
  (z ← vae_encode ex_make_tiled_fn ex_net ex_self (TVal [1] [b32_of_Z 1]) false true 512 256;
   vae_decode ex_make_tiled_fn ex_net ex_self z false (-1) (-1)) tt
  = decode ex_net (TVal [1] [b32_of_Z 1]) tt.
Proof.
  apply (vae_scale_roundtrip ex_make_tiled_fn ex_net ex_self
           (TVal [1] [b32_of_Z 1]) (TVal [1] [b32_of_Z 1])
           false true false 512 256 (-1) (-1) tt tt eq_refl).
  intros v [->|Hv%elem_of_nil]%elem_of_cons; [reflexivity|done].
Defined.

(** C8, as stated, does not hold: in binary32, with the scale 0.18215,
    the latent 11.0 comes back from [(11.0 * scale) / scale] one unit in
    the last place higher, so decoding the encoded image is not the
    decoder applied to the raw encoder output. *)
Lemma vae_scale_roundtrip_not_exact :
  (z ← vae_encode ex_make_tiled_fn ex_net ex_self (TVal [1] [b32_of_Z 11]) false false (-1) (-1);
   vae_decode ex_make_tiled_fn ex_net ex_self z false (-1) (-1)) tt
  ≠ (raw ← encode_mode ex_net (TVal [1] [b32_of_Z 11]); decode ex_net raw) tt.
Proof. intros Heq. vm_compute in Heq. discriminate. Qed.

(** * Further properties *)

(** ** Checkpoint keys *)

(** X1. The checkpoint key of a declared key tells the sub-network and the
    local key: two prefixed keys are equal only for the same role and the
    same local key, so no checkpoint key feeds two sub-networks. *)
Theorem target_key_role_inj (n1 n2 : role) (k1 k2 : string) :
  target_key (module_map n1) k1 = target_key (module_map n2) k2 ↔ n1 = n2 ∧ k1 = k2.
Proof.
  split; [|by intros [-> ->]].
  unfold target_key. destruct n1, n2; cbn; intros Heq; by simplify_eq.
Qed.

Lemma collect_init_sets {A} prefix sd scratch :
  ∀ init used missing (h h1 : store A) init' used' missing',
  collect_init prefix sd scratch init used missing h = (h1, (init', used', missing')) →
  (∀ tk, tk ∈ used' ↔ tk ∈ used ∨
     ∃ key, key ∈ scratch.*1 ∧ tk = target_key prefix key ∧ is_Some (sd !! tk)) ∧
  (∀ tk, tk ∈ missing' ↔ tk ∈ missing ∨
     ∃ key, key ∈ scratch.*1 ∧ tk = target_key prefix key ∧ sd !! tk = None).
Proof.
  induction scratch as [|[key p] rest IH];
    intros init used missing h h1 init' used' missing' Hrun.
  { injection Hrun as <- <- <- <-.
    split; intros tk; (split; [by left|]); by intros [?|(? & ?%elem_of_nil & _)]. }
  rewrite collect_init_cons in Hrun.
  change (((key, p) :: rest).*1) with (key :: rest.*1).
  destruct (sd !! target_key prefix key) as [t|] eqn:Hsd.
  - destruct (clone t h) as [ha c]. apply IH in Hrun as [Hused Hmiss]. split.
    + intros tk. rewrite Hused, elem_of_union, elem_of_singleton. split.
      * intros [[->|?]|(k & Hk & -> & ?)].
        -- right. exists key. split; [by left|]. split; [done|]. by rewrite Hsd.
        -- by left.
        -- right. exists k. split; [by right|done].
      * intros [?|(k & [->|Hk]%elem_of_cons & -> & ?)]; [by left; right|by left; left|].
        right. eauto.
    + intros tk. rewrite Hmiss. split.
      * intros [?|(k & Hk & -> & ?)]; [by left|]. right. exists k. split; [by right|done].
      * intros [?|(k & [->|Hk]%elem_of_cons & -> & Hn)]; [by left|congruence|].
        right. eauto.
  - apply IH in Hrun as [Hused Hmiss]. split.
    + intros tk. rewrite Hused. split.
      * intros [?|(k & Hk & -> & ?)]; [by left|]. right. exists k. split; [by right|done].
      * intros [?|(k & [->|Hk]%elem_of_cons & -> & Hs)]; [by left| |].
        -- rewrite Hsd in Hs. by destruct Hs.
        -- right. eauto.
    + intros tk. rewrite Hmiss, elem_of_union, elem_of_singleton. split.
      * intros [[->|?]|(k & Hk & -> & ?)].
        -- right. exists key. split; [by left|done].
        -- by left.
        -- right. exists k. split; [by right|done].
      * intros [?|(k & [->|Hk]%elem_of_cons & -> & ?)]; [by left; right|by left; left|].
        right. eauto.
Qed.

Lemma load_modules_sets {A} (self : ControlLDM A) sd modules :
  ∀ used missing (h h' : store A) used' missing',
  load_modules self modules sd used missing h = (h', Ok (used', missing')) →
  (∀ tk, tk ∈ used' ↔ tk ∈ used ∨
     ∃ name key, name ∈ modules ∧ key ∈ (state_dict (get_module self name)).*1 ∧
       tk = target_key (module_map name) key ∧ is_Some (sd !! tk)) ∧
  (∀ tk, tk ∈ missing' ↔ tk ∈ missing ∨
     ∃ name key, name ∈ modules ∧ key ∈ (state_dict (get_module self name)).*1 ∧
       tk = target_key (module_map name) key ∧ sd !! tk = None).
Proof.
  induction modules as [|name rest IH]; intros used missing h h' used' missing' Hrun.
  { injection Hrun as <- <- <-.
    split; intros tk; (split; [by left|]); by intros [?|(? & ? & ?%elem_of_nil & _)]. }
  rewrite load_modules_cons in Hrun.
  destruct (collect_init _ sd _ ∅ used missing h) as [h1 [[init' used1] missing1]] eqn:Hcol.
  apply collect_init_sets in Hcol as [Hused Hmiss].
  destruct (load_state_dict _ init' false h1) as [h2 [r|e]]; [|done].
  apply IH in Hrun as [Hused' Hmiss']. split.
  - intros tk. rewrite Hused', Hused. split.
    + intros [[?|(key & ? & ? & ?)]|(n & key & ? & ?)]; [by left| |].
      * right. exists name, key. split; [by left|done].
      * right. exists n, key. split; [by right|done].
    + intros [?|(n & key & [->|Hn]%elem_of_cons & ?)]; [by left; left| |].
      * left; right. eauto.
      * right. eauto.
  - intros tk. rewrite Hmiss', Hmiss. split.
    + intros [[?|(key & ? & ? & ?)]|(n & key & ? & ?)]; [by left| |].
      * right. exists name, key. split; [by left|done].
      * right. exists n, key. split; [by right|done].
    + intros [?|(n & key & [->|Hn]%elem_of_cons & ?)]; [by left; left| |].
      * left; right. eauto.
      * right. eauto.
Qed.

Lemma role_in_modules (name : role) : name ∈ [Unet; Vae; Clip].
Proof. destruct name; set_solver. Qed.

(** X2. The two sets [load_pretrained_sd] returns, read off the keys
    alone: [missing] is the set of prefixed declared keys that the
    checkpoint lacks, [unused] the set of checkpoint keys that are the
    prefixed key of no declared key; hence [missing] shares no key with the
    checkpoint or with [unused]. *)
Theorem returned_sets_characterised {A} (self self' : ControlLDM A)
    (sd : gmap string tensor) (h h' : store A) (unused missing : gset string) :
  load_pretrained_sd self sd h = (h', self', Ok (unused, missing)) →
  (∀ tk, tk ∈ missing ↔
     ∃ name key, key ∈ (state_dict (get_module self name)).*1 ∧
       tk = target_key (module_map name) key ∧ sd !! tk = None) ∧
  (∀ tk, tk ∈ unused ↔
     is_Some (sd !! tk) ∧
     ¬ ∃ name key, key ∈ (state_dict (get_module self name)).*1 ∧
         tk = target_key (module_map name) key) ∧
  missing ## dom sd ∧ missing ## unused.
Proof.
  intros (used & Hrun & -> & _)%load_pretrained_sd_inv.
  apply load_modules_sets in Hrun as [Hused Hmiss].
  assert (∀ tk, tk ∈ missing → tk ∉ dom sd) as Hdis.
  { intros tk [?%elem_of_empty|(n & key & _ & _ & _ & Hn)]%Hmiss; [done|].
    by apply not_elem_of_dom. }
  split; [|split; [|split]].
  - intros tk. rewrite Hmiss. split.
    + intros [?%elem_of_empty|(n & key & _ & ?)]; [done|eauto].
    + intros (n & key & ?). right. exists n, key. split; [apply role_in_modules|done].
  - intros tk. rewrite elem_of_difference, elem_of_dom, Hused. split.
    + intros [Hs Hn]. split; [done|]. intros (n & key & Hk & ->). apply Hn. right.
      exists n, key. split; [apply role_in_modules|done].
    + intros [Hs Hn]. split; [done|].
      intros [?%elem_of_empty|(n & key & _ & Hk & -> & _)]; [done|]. apply Hn. eauto.
  - intros tk Hm Hd. by apply (Hdis tk).
  - intros tk Hm [Hd _]%elem_of_difference. by apply (Hdis tk).
Qed.

Lemma returned_sets_characterised_witness :
  ∃ h' self' unused missing,
    load_pretrained_sd ex_self ex_sd ex_store = (h', self', Ok (unused, missing)) ∧
    "cond_stage_model.tok.w" ∈ missing ∧ missing ## unused.
Proof.
  pose proof ex_load_pretrained_sd_ok as Hok.
  destruct (load_pretrained_sd ex_self ex_sd ex_store) as [[h' self'] [[unused missing]|e]]
    eqn:Hrun; [clear Hok|discriminate Hok].
  exists h', self', unused, missing. split; [reflexivity|].
  destruct (returned_sets_characterised ex_self self' ex_sd ex_store h' unused missing Hrun)
    as (Hm & _ & _ & Hd).
  split; [|exact Hd]. apply Hm. exists Clip, "tok.w".
  split; [by_compute|]. split; reflexivity.
Defined.

(** ** Failure and footprint of the checkpoint adapter *)

Lemma load_state_dict_raise_inv {A} m init strict (h h' : store A) e :
  load_state_dict m init strict h = (h', Raise e) →
  e = RuntimeError ∧ h' = load_params (state_dict m) init h ∧
  (strict = false → ∃ k p inp, (k, p) ∈ state_dict m ∧ init !! k = Some inp ∧
                               t_shape inp ≠ t_shape p).
Proof.
  unfold load_state_dict. case_decide as Hd; [|done]. intros [= <- <-].
  split; [done|]. split; [done|]. intros ->.
  destruct Hd as [[[=] _]|Hs].
  unfold size_mismatches in Hs.
  destruct (filter (mismatched init) (state_dict m)) as [|[k p] l] eqn:Hf; [done|].
  assert ((k, p) ∈ filter (mismatched init) (state_dict m)) as Hin by (rewrite Hf; by left).
  apply list_elem_of_filter in Hin as [Hm Hin]. unfold mismatched in Hm. simpl in Hm.
  destruct (init !! k) as [inp|] eqn:Hk; [|done]. eauto 10.
Qed.

(** Whatever the outcome, the loop over [modules] writes to the cells of
    these sub-networks only. *)
Lemma load_modules_frame {A} (self : ControlLDM A) sd modules :
  ∀ used missing (h h' : store A) r,
  load_modules self modules sd used missing h = (h', r) →
  modules_wf h self sd modules →
  dom h ⊆ dom h' ∧
  ∀ l, l ∈ dom h → (∀ name, name ∈ modules → l ∉ owned (get_module self name)) →
       h' !! l = h !! l.
Proof.
  induction modules as [|name rest IH]; intros used missing h h' r Hrun Hwf.
  { by injection Hrun as <- <-. }
  rewrite load_modules_cons in Hrun.
  destruct (collect_init _ sd _ ∅ used missing h) as [h1 [[init' used1] missing1]] eqn:Hcol.
  pose proof Hwf as (Hnd & Hmod & Hdis & Hck).
  destruct (Hmod name) as (Hk & Hown & Hdom); [by left|].
  pose proof (load_module_store _ _ _ _ _ _ _ _ _ _ Hcol Hk Hown Hdom
                (λ k t Hkt, proj1 (Hck k t Hkt))) as (Hsub & Hframe & _).
  pose proof (load_state_dict_store (get_module self name) init' false h1) as Hst.
  destruct (load_state_dict (get_module self name) init' false h1) as [h2 [x|e]];
    simpl in Hst; subst h2.
  - apply IH in Hrun as [Hsub' Hframe']; [|by eapply modules_wf_tail].
    split; [by etrans|]. intros l Hl Hno. rewrite Hframe'.
    + apply Hframe; [done|]. apply Hno. by left.
    + by apply Hsub.
    + intros n Hn. apply Hno. by right.
  - injection Hrun as <- <-. split; [done|]. intros l Hl Hno.
    apply Hframe; [done|]. apply Hno. by left.
Qed.

Lemma load_modules_raise {A} (self : ControlLDM A) sd modules :
  ∀ used missing (h h' : store A) e,
  load_modules self modules sd used missing h = (h', Raise e) →
  modules_wf h self sd modules →
  e = RuntimeError ∧
  ∃ name key p t, name ∈ modules ∧ (key, p) ∈ state_dict (get_module self name) ∧
    sd !! target_key (module_map name) key = Some t ∧ t_shape t ≠ t_shape p.
Proof.
  induction modules as [|name rest IH]; intros used missing h h' e Hrun Hwf; [done|].
  rewrite load_modules_cons in Hrun.
  destruct (collect_init _ sd _ ∅ used missing h) as [h1 [[init' used1] missing1]] eqn:Hcol.
  pose proof Hwf as (Hnd & Hmod & Hdis & Hck).
  destruct (Hmod name) as (Hk & Hown & Hdom); [by left|].
  pose proof (load_module_store _ _ _ _ _ _ _ _ _ _ Hcol Hk Hown Hdom
                (λ k t Hkt, proj1 (Hck k t Hkt))) as (Hsub & _).
  pose proof (load_state_dict_store (get_module self name) init' false h1) as Hst.
  destruct (load_state_dict (get_module self name) init' false h1) as [h2 [x|e']] eqn:Hld;
    simpl in Hst; subst h2.
  - apply IH in Hrun as (-> & n & key & p & t & Hn & Hrest); [|by eapply modules_wf_tail].
    split; [done|]. exists n, key, p, t. split; [by right|done].
  - injection Hrun as <- <-.
    apply load_state_dict_raise_inv in Hld as (-> & _ & Hex).
    destruct (Hex eq_refl) as (k & p & inp & Hin & Hinp & Hne). split; [done|].
    apply collect_init_spec in Hcol as (_ & _ & Hkeys & _);
      [|done|by intros k' t' Hkt; apply (Hck k' t' Hkt)].
    specialize (Hkeys k (list_elem_of_fmap_2 fst _ _ Hin)). simpl in Hkeys.
    destruct (sd !! target_key (module_map name) k) as [t|] eqn:Ht.
    + destruct Hkeys as (c & Hc & _ & Hsh & _).
      exists name, k, p, t. split; [by left|]. split; [done|]. split; [done|]. congruence.
    + by rewrite Hkeys in Hinp.
Qed.

Lemma facade_wf_owned_controlnet {A} (h : store A) (self : ControlLDM A) name l :
  facade_wf h self → l ∈ owned (controlnet self) → l ∉ owned (get_module self name).
Proof.
  intros (Hnd & _) Hc Hm. unfold all_owned in Hnd.
  apply NoDup_app in Hnd as (_ & Hdu & Hnd).
  apply NoDup_app in Hnd as (_ & Hdv & Hnd).
  apply NoDup_app in Hnd as (_ & Hdc & _).
  destruct name; simpl in Hm.
  - apply (Hdu l Hm). rewrite !elem_of_app. eauto.
  - apply (Hdv l Hm). rewrite !elem_of_app. eauto.
  - by apply (Hdc l Hm).
Qed.

(** X3. [load_pretrained_sd] raises only for a checkpoint tensor whose
    shape is not its parameter's; the exception is a [RuntimeError], and the
    facade is as it was: no sub-network was frozen. *)
Theorem load_pretrained_sd_failure {A} (self self' : ControlLDM A)
    (sd : gmap string tensor) (h h' : store A) (e : error) :
  facade_wf h self → checkpoint_wf h self sd →
  load_pretrained_sd self sd h = (h', self', Raise e) →
  e = RuntimeError ∧ self' = self ∧
  ∃ name key p t, (key, p) ∈ state_dict (get_module self name) ∧
    sd !! target_key (module_map name) key = Some t ∧ t_shape t ≠ t_shape p.
Proof.
  intros Hwf Hck Hrun. unfold load_pretrained_sd in Hrun.
  destruct (load_modules self [Unet; Vae; Clip] sd ∅ ∅ h) as [h1 [[used ms]|e']] eqn:Hl;
    [done|]. injection Hrun as <- <- <-.
  apply load_modules_raise in Hl as (-> & n & key & p & t & _ & Hrest);
    [|by apply facade_modules_wf].
  split; [done|]. split; [done|]. eauto.
Qed.

Lemma ex_bad_checkpoint_wf : checkpoint_wf ex_store ex_self ex_sd_bad.
Proof.
  intros k t Hk%elem_of_list_to_map_2.
  repeat (apply elem_of_cons in Hk as [[= -> ->]|Hk];
          [split; [vm_compute; reflexivity|by_compute]|]).
  by apply elem_of_nil in Hk.
Qed.

Lemma ex_bad_load_raises :
  is_ok (load_pretrained_sd ex_self ex_sd_bad ex_store).2 = false.
Proof. vm_compute. reflexivity. Qed.

Lemma load_pretrained_sd_failure_witness :
  ∃ h', load_pretrained_sd ex_self ex_sd_bad ex_store = (h', ex_self, Raise RuntimeError).
Proof.
  pose proof ex_bad_load_raises as Hok.
  destruct (load_pretrained_sd ex_self ex_sd_bad ex_store) as [[h' self'] [r|e]] eqn:Hrun;
    [discriminate Hok|clear Hok].
  destruct (load_pretrained_sd_failure ex_self self' ex_sd_bad ex_store h' e
              ex_facade_wf ex_bad_checkpoint_wf Hrun) as (-> & -> & _).
  exists h'. reflexivity.
Defined.

(** X4. [load_pretrained_sd] is not all or nothing: when it raises, the
    parameters of the unet (the first sub-network loaded) whose checkpoint
    tensors have the right shape already hold the checkpoint's values. *)
Theorem load_pretrained_sd_partial {A} (self self' : ControlLDM A)
    (sd : gmap string tensor) (h h' : store A) (e : error)
    (key : string) (p t : tensor) :
  facade_wf h self → checkpoint_wf h self sd →
  load_pretrained_sd self sd h = (h', self', Raise e) →
  (key, p) ∈ state_dict (unet self) →
  sd !! target_key (module_map Unet) key = Some t →
  t_shape t = t_shape p →
  deref h' p = deref h t.
Proof.
  intros Hwf Hck Hrun Hin Ht Hs. unfold load_pretrained_sd in Hrun.
  destruct (load_modules self [Unet; Vae; Clip] sd ∅ ∅ h) as [h1 [[used ms]|e1]] eqn:Hl;
    [done|]. injection Hrun as <- <- <-.
  pose proof (facade_modules_wf h self sd Hwf Hck) as Hmwf.
  rewrite load_modules_cons in Hl.
  destruct (collect_init _ sd _ ∅ ∅ ∅ h) as [ha [[init1 used1] missing1]] eqn:Hcol.
  pose proof Hmwf as (Hnd & Hmod & Hdis & Hsep).
  destruct (Hmod Unet) as (Hk & Hown & Hdom); [by left|].
  pose proof (load_module_store _ _ _ _ _ _ _ _ _ _ Hcol Hk Hown Hdom
                (λ k t Hkt, proj1 (Hsep k t Hkt))) as (Hsub & _ & Hent).
  specialize (Hent key p Hin). rewrite Ht in Hent. specialize (Hent Hs).
  pose proof (load_state_dict_store (get_module self Unet) init1 false ha) as Hst.
  assert (t_loc p ∈ owned (unet self)) as Hp
    by apply (list_elem_of_fmap_2 (λ kp : string * tensor, t_loc kp.2) _ _ Hin).
  destruct (load_state_dict (get_module self Unet) init1 false ha) as [hb [x|e2]];
    simpl in Hst; subst hb.
  - apply load_modules_frame in Hl as [_ Hframe]; [|by eapply modules_wf_tail].
    assert (h1 !! t_loc p
            = load_params (state_dict (get_module self Unet)) init1 ha !! t_loc p) as Hfr.
    { apply Hframe; [by apply Hsub, Hdom|].
      intros n Hn. apply (Hdis Unet n); [by left|by right| |done].
      intros <-. apply NoDup_cons in Hnd as [Hno _]. done. }
    unfold deref, read. by rewrite Hfr, Hent, Hs.
  - injection Hl as Hh _. rewrite <-Hh. unfold deref, read.
    change (unet self) with (get_module self Unet). by rewrite Hent, Hs.
Qed.

Lemma load_pretrained_sd_partial_witness :
  ∃ h' e, load_pretrained_sd ex_self ex_sd_bad ex_store = (h', ex_self, Raise e) ∧
    deref h' (Tensor 1 [2]) = TVal [2] [b32_of_Z 80; b32_of_Z 81].
Proof.
  pose proof ex_bad_load_raises as Hok.
  destruct (load_pretrained_sd ex_self ex_sd_bad ex_store) as [[h' self'] [r|e]] eqn:Hrun;
    [discriminate Hok|clear Hok].
  assert (self' = ex_self) as ->.
  { unfold load_pretrained_sd in Hrun.
    destruct (load_modules ex_self [Unet; Vae; Clip] ex_sd_bad ∅ ∅ ex_store)
      as [h1 [[u m]|e1]]; by injection Hrun. }
  exists h', e. split; [reflexivity|].
  rewrite (load_pretrained_sd_partial ex_self ex_self ex_sd_bad ex_store h' e
             "time.bias" (Tensor 1 [2]) (Tensor 8 [2])
             ex_facade_wf ex_bad_checkpoint_wf Hrun).
  - reflexivity.
  - by_compute.
  - reflexivity.
  - reflexivity.
Defined.

(** X5. [load_pretrained_sd] never touches the control branch or the
    checkpoint, whether it returns or raises: the control branch's module
    is the one it was, its tensors and the checkpoint's tensors hold what
    they held.  The control branch stays switchable: a later [train(True)]
    on the facade puts a control branch with the stock [train] in training
    mode. *)
Theorem load_pretrained_sd_footprint {A} (self self' : ControlLDM A)
    (sd : gmap string tensor) (h h' : store A)
    (r : result (gset string * gset string)) :
  facade_wf h self → checkpoint_wf h self sd →
  load_pretrained_sd self sd h = (h', self', r) →
  controlnet self' = controlnet self ∧
  (∀ key p, (key, p) ∈ state_dict (controlnet self) → deref h' p = deref h p) ∧
  (∀ k t, sd !! k = Some t → deref h' t = deref h t) ∧
  (m_train (controlnet self) = TrainDefault →
   m_training (controlnet (cldm_train self' true)) = true).
Proof.
  intros Hwf Hck Hrun. unfold load_pretrained_sd in Hrun.
  pose proof (facade_modules_wf h self sd Hwf Hck) as Hmwf.
  destruct (load_modules self [Unet; Vae; Clip] sd ∅ ∅ h) as [h1 rl] eqn:Hl.
  apply load_modules_frame in Hl as [_ Hframe]; [|done].
  assert (h' = h1 ∧ controlnet self' = controlnet self) as [-> Hcn].
  { destruct rl as [[used ms]|e]; by injection Hrun as <- <- _. }
  split; [done|]. split; [|split].
  - intros key p Hin.
    assert (t_loc p ∈ owned (controlnet self)) as Hp
      by apply (list_elem_of_fmap_2 (λ kp : string * tensor, t_loc kp.2) _ _ Hin).
    unfold deref, read. rewrite Hframe; [done| |].
    + apply facade_wf_controlnet in Hwf as (_ & _ & Hc & _).
      by apply (proj1 (Forall_forall _ _) Hc (key, p)).
    + intros n _. by eapply facade_wf_owned_controlnet.
  - intros k t Hk. destruct Hmwf as (_ & _ & _ & Hsep). destruct (Hsep k t Hk) as [Hd Hn].
    unfold deref, read. by rewrite Hframe.
  - intros Ht. unfold cldm_train. simpl. rewrite Hcn. unfold call_train. by rewrite Ht.
Qed.

Lemma load_pretrained_sd_footprint_witness :
  ∃ h' self' r,
    load_pretrained_sd ex_self ex_sd ex_store = (h', self', r) ∧
    controlnet self' = ex_controlnet ∧
    m_training (controlnet (cldm_train self' true)) = true.
Proof.
  destruct (load_pretrained_sd ex_self ex_sd ex_store) as [[h' self'] r] eqn:Hrun.
  exists h', self', r. split; [reflexivity|].
  destruct (load_pretrained_sd_footprint ex_self self' ex_sd ex_store h' r
              ex_facade_wf ex_checkpoint_wf Hrun) as (Hcn & _ & _ & Ht).
  split; [exact Hcn|]. apply Ht. reflexivity.
Defined.

(** ** [load_controlnet_from_ckpt] *)

(** X6. [load_controlnet_from_ckpt] is a strict load: it returns exactly
    when the checkpoint has the control branch's keys, no more and no
    less, each with the declared shape, and otherwise raises a
    [RuntimeError]; when it returns, every tensor of the control branch
    holds the checkpoint's value for its key.  Either way only cells of the
    control branch are written. *)
Theorem load_controlnet_from_ckpt_strict {A} (self : ControlLDM A)
    (sd : gmap string tensor) (h : store A) :
  NoDup (owned (controlnet self)) →
  (∀ k t, sd !! k = Some t → t_loc t ∉ owned (controlnet self)) →
  (is_ok (load_controlnet_from_ckpt self sd h).2 = true ↔
     (∀ k, k ∈ (state_dict (controlnet self)).*1 ↔ is_Some (sd !! k)) ∧
     (∀ k p t, (k, p) ∈ state_dict (controlnet self) → sd !! k = Some t →
        t_shape t = t_shape p)) ∧
  (is_ok (load_controlnet_from_ckpt self sd h).2 = false →
     (load_controlnet_from_ckpt self sd h).2 = Raise RuntimeError) ∧
  (is_ok (load_controlnet_from_ckpt self sd h).2 = true →
     ∀ k p, (k, p) ∈ state_dict (controlnet self) →
       ∃ t, sd !! k = Some t ∧
            deref (load_controlnet_from_ckpt self sd h).1 p = deref h t) ∧
  (∀ l, l ∉ owned (controlnet self) →
     (load_controlnet_from_ckpt self sd h).1 !! l = h !! l).
Proof.
  intros Hnd Hsep.
  pose proof (load_state_dict_ok_iff (controlnet self) sd true h) as Hiff.
  pose proof (load_state_dict_store (controlnet self) sd true h) as Hst.
  assert ((load_controlnet_from_ckpt self sd h).1
          = load_params (state_dict (controlnet self)) sd h) as Hst'.
  { unfold load_controlnet_from_ckpt, mbind, st_bind. rewrite <-Hst.
    by destruct (load_state_dict (controlnet self) sd true h) as [h1 [x|e]]. }
  assert (is_ok (load_controlnet_from_ckpt self sd h).2
          = is_ok (load_state_dict (controlnet self) sd true h).2) as Hok.
  { unfold load_controlnet_from_ckpt, mbind, st_bind.
    by destruct (load_state_dict (controlnet self) sd true h) as [h1 [x|e]]. }
  assert (is_ok (load_controlnet_from_ckpt self sd h).2 = true ↔
     (∀ k, k ∈ (state_dict (controlnet self)).*1 ↔ is_Some (sd !! k)) ∧
     (∀ k p t, (k, p) ∈ state_dict (controlnet self) → sd !! k = Some t →
        t_shape t = t_shape p)) as Hchar.
  { rewrite Hok, Hiff, size_mismatches_nil, unexpected_keys_nil, missing_keys_nil. split.
    - intros [Hs Hk]. destruct (Hk eq_refl) as [Hu Hm]. split; [|done].
      intros k. split; [apply Hm|apply Hu].
    - intros [Hk Hs]. split; [done|]. intros _. split; intros k; apply Hk. }
  split; [done|]. split; [|split].
  - unfold load_controlnet_from_ckpt, mbind, st_bind.
    destruct (load_state_dict (controlnet self) sd true h) as [h1 [x|e]] eqn:Hld; [done|].
    intros _. by apply load_state_dict_raise_inv in Hld as (-> & _).
  - intros [Hk Hs]%Hchar k p Hin.
    destruct (proj1 (Hk k) (list_elem_of_fmap_2 fst _ _ Hin)) as [t Ht].
    exists t. split; [done|]. rewrite Hst'. unfold deref, read.
    rewrite (load_params_lookup _ _ _ k p Hnd Hsep Hin), Ht.
    rewrite decide_True by by eapply Hs. simpl. f_equal. symmetry. by eapply Hs.
  - intros l Hl. rewrite Hst'. by apply load_params_frame.
Qed.

Lemma load_controlnet_from_ckpt_strict_witness :
  is_ok (load_controlnet_from_ckpt ex_self_same ex_sd_controlnet ex_store).2 = true ∧
  deref (load_controlnet_from_ckpt ex_self_same ex_sd_controlnet ex_store).1 (Tensor 3 [2])
  = TVal [2] [b32_of_Z 90; b32_of_Z 91] ∧
  (load_controlnet_from_ckpt ex_self ex_sd_controlnet ex_store).2 = Raise RuntimeError.
Proof.
  assert (∀ k t, ex_sd_controlnet !! k = Some t →
                 t_loc t ∉ owned (controlnet ex_self_same)) as Hsep1.
  { intros k t Hk%elem_of_list_to_map_2.
    apply elem_of_cons in Hk as [[= -> ->]|Hk%elem_of_nil]; [by_compute|done]. }
  assert (∀ k t, ex_sd_controlnet !! k = Some t →
                 t_loc t ∉ owned (controlnet ex_self)) as Hsep2.
  { intros k t Hk%elem_of_list_to_map_2.
    apply elem_of_cons in Hk as [[= -> ->]|Hk%elem_of_nil]; [by_compute|done]. }
  destruct (load_controlnet_from_ckpt_strict ex_self_same ex_sd_controlnet ex_store
              ltac:(by_compute) Hsep1) as (_ & _ & Hval & _).
  destruct (load_controlnet_from_ckpt_strict ex_self ex_sd_controlnet ex_store
              ltac:(by_compute) Hsep2) as (_ & Hraise & _).
  split; [reflexivity|]. split.
  - destruct (Hval eq_refl "time.bias" (Tensor 3 [2])) as (t & Ht & ->); [by_compute|].
    vm_compute in Ht. injection Ht as <-. reflexivity.
  - apply Hraise. reflexivity.
Defined.

(** ** More on the bootstrap *)

(** X7. The two sets [load_controlnet_from_unet] returns: a key is in
    [keys_zero_padded] exactly when the denoiser declares it with another
    shape, in [keys_fresh] exactly when the denoiser does not declare it;
    the sets are disjoint, and a fresh key's tensor keeps the value it
    had. *)
Theorem bootstrap_returned_sets {A} `{Scalar A} (self : ControlLDM A) (h h' : store A)
    (zp fr : gset string) :
  facade_wf h self →
  load_controlnet_from_unet self h = (h', Ok (zp, fr)) →
  (∀ k, k ∈ zp ↔ ∃ this target, (k, this) ∈ state_dict (controlnet self) ∧
          assoc k (state_dict (unet self)) = Some target ∧
          t_shape this ≠ t_shape target) ∧
  (∀ k, k ∈ fr ↔ k ∈ (state_dict (controlnet self)).*1 ∧
          assoc k (state_dict (unet self)) = None) ∧
  zp ## fr ∧
  (∀ key this, (key, this) ∈ state_dict (controlnet self) → key ∈ fr →
     deref h' this = deref h this).
Proof.
  intros Hwf Hrun.
  pose proof (load_controlnet_from_unet_ok self h h' zp fr Hwf Hrun)
    as (_ & Hres & Hzp & Hfr).
  split; [done|]. split; [done|]. split.
  - intros k (this & target & _ & Ha & _)%Hzp [_ Hn]%Hfr. congruence.
  - intros key this Hin [_ Hn]%Hfr.
    destruct (Hres key this Hin) as [tg Ha|tg oc n d hh w zs Ha|_ Hv]; [congruence..|done].
Qed.

Lemma bootstrap_returned_sets_witness :
  ∃ h' zp fr,
    load_controlnet_from_unet ex_self ex_store = (h', Ok (zp, fr)) ∧
    "hint.bias" ∈ fr ∧ "in.weight" ∈ zp ∧ "time.bias" ∉ zp ∧
    deref h' (Tensor 5 [1]) = TVal [1] [b32_of_Z 50].
Proof.
  pose proof ex_bootstrap_ok as Hok.
  destruct (load_controlnet_from_unet ex_self ex_store) as [h' [[zp fr]|e]] eqn:Hrun;
    [clear Hok|discriminate Hok].
  exists h', zp, fr. split; [reflexivity|].
  destruct (bootstrap_returned_sets ex_self ex_store h' zp fr ex_facade_wf Hrun)
    as (Hzp & Hfr & _ & Hval).
  assert ("hint.bias" ∈ fr) as Hf by (apply Hfr; split; [by_compute|reflexivity]).
  split; [exact Hf|]. split; [|split].
  - apply Hzp. exists (Tensor 4 [1; 3; 1; 2]), (Tensor 2 [1; 2; 1; 2]).
    split; [by_compute|]. split; [reflexivity|discriminate].
  - intros (this & target & Hin & Ha & Hne)%Hzp.
    vm_compute in Ha. injection Ha as <-.
    apply assoc_lookup in Hin; [|by_compute].
    vm_compute in Hin. injection Hin as <-. by apply Hne.
  - rewrite (Hval "hint.bias" (Tensor 5 [1])); [reflexivity|by_compute|exact Hf].
Defined.

(** X8. [load_controlnet_from_unet] writes to the control branch only:
    whether it returns or raises, every tensor of the denoiser, the VAE and
    the text encoder holds what it held. *)
Theorem bootstrap_footprint {A} `{Scalar A} (self : ControlLDM A) (h h' : store A)
    (r : result (gset string * gset string)) (name : role) (key : string) (p : tensor) :
  facade_wf h self →
  load_controlnet_from_unet self h = (h', r) →
  (key, p) ∈ state_dict (get_module self name) →
  deref h' p = deref h p.
Proof.
  intros Hwf Hrun Hin.
  assert (t_loc p ∈ owned (get_module self name)) as Hp
    by apply (list_elem_of_fmap_2 (λ kp : string * tensor, t_loc kp.2) _ _ Hin).
  assert (t_loc p ∈ dom h) as Hd.
  { pose proof (facade_modules_wf h self ∅ Hwf ltac:(by intros ?? ?%lookup_empty_Some))
      as (_ & Hmod & _).
    destruct (Hmod name (role_in_modules name)) as (_ & _ & Hdom). by apply Hdom. }
  destruct r as [[zp fr]|e].
  - pose proof (load_controlnet_from_unet_ok self h h' zp fr Hwf Hrun) as (Hframe & _).
    unfold deref, read. rewrite Hframe; [done|done|].
    intros Hc. by apply (facade_wf_owned_controlnet h self name (t_loc p) Hwf Hc).
  - apply load_controlnet_from_unet_raise in Hrun as [Hsub _]; [|done].
    by apply deref_weaken.
Qed.

Lemma bootstrap_footprint_witness :
  ∃ h' r, load_controlnet_from_unet ex_self ex_store = (h', r) ∧
    deref h' (Tensor 2 [1; 2; 1; 2]) = deref ex_store (Tensor 2 [1; 2; 1; 2]).
Proof.
  destruct (load_controlnet_from_unet ex_self ex_store) as [h' r] eqn:Hrun.
  exists h', r. split; [reflexivity|].
  apply (bootstrap_footprint ex_self ex_store h' r Unet "in.weight" (Tensor 2 [1; 2; 1; 2])
           ex_facade_wf Hrun).
  by_compute.
Defined.

(** ** Which exception the zero padding raises *)

Lemma zeros_raise {A} `{Scalar A} sizes e :
  zeros (A := A) sizes = Raise e → e = RuntimeError.
Proof. unfold zeros. case_decide; [done|]. by intros [= <-]. Qed.

Lemma cat_raise {A} (a b : tval A) dim e :
  cat a b dim = Raise e → (2 ≤ length (shape a))%nat → (2 ≤ length (shape b))%nat →
  e = RuntimeError.
Proof.
  unfold cat. intros Hc Ha Hb.
  rewrite decide_False in Hc by (intros Heq; rewrite Heq in Ha; simpl in Ha; lia).
  rewrite decide_False in Hc by (intros Heq; rewrite Heq in Hb; simpl in Hb; lia).
  case_decide; [done|]. by injection Hc as <-.
Qed.

Lemma torch_zeros_raise {A} `{Scalar A} sizes (h h' : store A) e :
  torch_zeros sizes h = (h', Raise e) → e = RuntimeError.
Proof.
  unfold torch_zeros. intros Hb.
  apply st_bind_raise_inv in Hb as [[_ Hz]%lift_inv|(h1 & zs & _ & (? & _ & [=])%returning_inv)].
  symmetry in Hz. by apply zeros_raise in Hz.
Qed.

Lemma torch_cat_raise {A} a b dim (h h' : store A) e :
  torch_cat a b dim h = (h', Raise e) →
  (2 ≤ length (t_shape a))%nat → (2 ≤ length (t_shape b))%nat → e = RuntimeError.
Proof.
  unfold torch_cat. intros Hb Ha Hbb.
  apply st_bind_raise_inv in Hb as [[_ Hz]%lift_inv|(h1 & zs & _ & (? & _ & [=])%returning_inv)].
  symmetry in Hz. by apply cat_raise in Hz.
Qed.

(** X9. The exception of the zero-padding branch (lines 81-84), by the
    shapes: an [IndexError] when either tensor has no dimension 1, a
    [ValueError] when the control branch's tensor has a dimension 1 but
    not rank 4, and a [RuntimeError] when it has rank 4 but the denoiser's
    tensor is not the same shape up to fewer or as many channels. *)
Theorem pad_with_zeros_errors {A} `{Scalar A} (this target : tensor) (h : store A) :
  (length (t_shape this) < 2 ∨ length (t_shape target) < 2 →
   (pad_with_zeros this target h).2 = Raise IndexError) ∧
  ((2 ≤ length (t_shape this))%nat → (2 ≤ length (t_shape target))%nat →
   length (t_shape this) ≠ 4 →
   (pad_with_zeros this target h).2 = Raise ValueError) ∧
  (length (t_shape this) = 4 → (2 ≤ length (t_shape target))%nat →
   (¬ ∃ oc n d hh w, t_shape target = [oc; n; hh; w] ∧
                      t_shape this = [oc; n + d; hh; w]) →
   (pad_with_zeros this target h).2 = Raise RuntimeError).
Proof.
  split; [|split].
  - intros Hlen. unfold pad_with_zeros.
    destruct (t_shape this) as [|a [|b tl]] eqn:Hthis; try done.
    destruct (t_shape target) as [|a' [|b' tl']] eqn:Htarget; try done.
    simpl in Hlen. lia.
  - intros H1 H2 H4. unfold pad_with_zeros.
    destruct (t_shape this) as [|a [|b tl]] eqn:Hthis; simpl in H1; try lia.
    destruct (t_shape target) as [|a' [|b' tl']] eqn:Htarget; simpl in H2; try lia.
    destruct tl as [|c [|d [|? ?]]]; first [done|simpl in H4; lia].
  - intros H4 H2 Hno.
    destruct (pad_with_zeros this target h) as [h' [c|e]] eqn:Hrun.
    { exfalso. apply Hno.
      apply pad_with_zeros_ok in Hrun as (oc & n & d & hh & w & zs & Ht & Hs & _).
      eauto 10. }
    simpl. f_equal. unfold pad_with_zeros in Hrun.
    destruct (t_shape this) as [|oc [|a [|hh [|w [|??]]]]] eqn:Hthis; try done.
    destruct (t_shape target) as [|oc' [|b tl]] eqn:Htarget; simpl in H2; try lia.
    apply st_bind_raise_inv in Hrun as [[_ [=]]%lift_inv|(? & a0 & [-> _]%lift_inv & Hrun)].
    apply st_bind_raise_inv in Hrun as [[_ [=]]%lift_inv|(? & b0 & [-> _]%lift_inv & Hrun)].
    apply st_bind_raise_inv in Hrun
      as [[_ [=]]%lift_inv|(? & [[[oc0 ?] hh0] w0] & [-> Hu]%lift_inv & Hrun)].
    injection Hu as -> _ -> ->.
    apply st_bind_raise_inv in Hrun as [Hz|(h1 & tz & Hz & Hrun)].
    + by apply torch_zeros_raise in Hz.
    + apply torch_zeros_inv in Hz as (zs & Hzs & (_ & _ & Hsh & _)%new_tensor_spec).
      apply zeros_ok in Hzs as (_ & Hzsh & _).
      apply torch_cat_raise in Hrun; [done|rewrite Htarget; simpl; lia|].
      rewrite Hsh, Hzsh. simpl. lia.
Qed.

(** ** Running the loaders again *)

Lemma tensor_ok_iff {A} (h : store A) t :
  tensor_ok h t ↔ t_loc t ∈ dom h ∧ tval_wf (deref h t).
Proof.
  unfold tensor_ok, tval_wf, deref, read. simpl. rewrite elem_of_dom.
  destruct (h !! t_loc t) as [d|]; simpl.
  - split; [intros Hl; split; [eauto|done]|by intros [_ ?]].
  - split; [done|]. by intros [[? [=]] _].
Qed.

Lemma load_controlnet_from_unet_dom {A} `{Scalar A} (self : ControlLDM A)
    (h h' : store A) r :
  facade_wf h self → load_controlnet_from_unet self h = (h', r) → dom h ⊆ dom h'.
Proof.
  intros Hwf Hrun. destruct r as [[zp fr]|e].
  - unfold load_controlnet_from_unet in Hrun.
    apply facade_wf_controlnet in Hwf as (Hk & Hnd & Hc & Hu & Hdis).
    apply st_bind_ok_inv in Hrun as (h1 & [[init' zp'] fr'] & Hl & Hrun).
    apply st_bind_ok_inv in Hrun as (h2 & [ms un] & Hld & [= <- <- <-]).
    apply init_from_unet_ok in Hl as (Hsub & _); [|done..].
    pose proof (load_state_dict_store (controlnet self) init' true h1) as Hst.
    rewrite Hld in Hst. simpl in Hst. subst h2.
    etrans; [by apply subseteq_dom|]. apply load_params_dom_sub.
  - apply load_controlnet_from_unet_raise in Hrun as [Hsub _]; [|done].
    by apply subseteq_dom.
Qed.

Lemma module_ok_frame {A} (h h' : store A) m :
  module_ok h m → (∀ l, l ∈ owned m → h' !! l = h !! l) → module_ok h' m.
Proof.
  intros [Hk Hall] Hframe. split; [done|].
  apply Forall_forall. intros [k p] Hin.
  pose proof (proj1 (Forall_forall _ _) Hall (k, p) Hin) as Hok.
  unfold tensor_ok in *. simpl in *. rewrite Hframe; [done|].
  apply (list_elem_of_fmap_2 (λ kp : string * tensor, t_loc kp.2) _ _ Hin).
Qed.

(** The bootstrap leaves a well-formed store well formed. *)
Lemma facade_wf_bootstrap {A} `{Scalar A} (self : ControlLDM A) (h h' : store A) zp fr :
  facade_wf h self →
  load_controlnet_from_unet self h = (h', Ok (zp, fr)) →
  facade_wf h' self.
Proof.
  intros Hwf Hrun.
  pose proof (load_controlnet_from_unet_ok self h h' zp fr Hwf Hrun) as (Hframe & Hres & _).
  pose proof (load_controlnet_from_unet_dom self h h' _ Hwf Hrun) as Hdom.
  pose proof Hwf as (Hnd & Hu & Hv & Hc & Hcn).
  assert (∀ name l, l ∈ owned (get_module self name) → h' !! l = h !! l) as Hfr.
  { intros name l Hl. apply Hframe.
    - pose proof (facade_modules_wf h self ∅ Hwf ltac:(by intros ?? ?%lookup_empty_Some))
        as (_ & Hmod & _).
      destruct (Hmod name (role_in_modules name)) as (_ & _ & Hd). by apply Hd.
    - intros Hc'. by apply (facade_wf_owned_controlnet h self name l Hwf Hc'). }
  split; [done|].
  split; [by apply (module_ok_frame h h' _ Hu), (Hfr Unet)|].
  split; [by apply (module_ok_frame h h' _ Hv), (Hfr Vae)|].
  split; [by apply (module_ok_frame h h' _ Hc), (Hfr Clip)|].
  destruct Hcn as [Hk Hall]. split; [done|].
  apply Forall_forall. intros [key this] Hin. simpl.
  pose proof (proj1 (Forall_forall _ _) Hall (key, this) Hin) as Hok. simpl in Hok.
  apply tensor_ok_iff. split; [by apply Hdom, tensor_ok_dom|].
  destruct Hu as [_ Huall].
  destruct (Hres key this Hin) as [tg Ha Hs Hv'|tg oc n d hh w zs Ha Hne Ht Hs Hz Hcat|Ha Hv'].
  - pose proof (proj1 (Forall_forall _ _) Huall (key, tg) (assoc_elem_of _ _ _ Ha)) as Htg.
    apply tensor_ok_wf in Htg. unfold tval_wf in *. rewrite Hv'. done.
  - pose proof (proj1 (Forall_forall _ _) Huall (key, tg) (assoc_elem_of _ _ _ Ha)) as Htg.
    apply tensor_ok_wf in Htg.
    by destruct (cat_zeros_channels (deref h tg) zs (deref h' this)
                   oc n d hh w Ht Htg Hz Hcat) as (_ & ? & _).
  - apply tensor_ok_wf in Hok. unfold tval_wf in *. by rewrite Hv'.
Qed.

(** X10. [load_controlnet_from_unet] is idempotent: run again on its own
    result, it returns the same two sets and leaves every tensor of the
    control branch as the first run left it. *)
Theorem bootstrap_idempotent {A} `{Scalar A} (self : ControlLDM A) (h h1 : store A)
    (zp fr : gset string) :
  facade_wf h self →
  load_controlnet_from_unet self h = (h1, Ok (zp, fr)) →
  ∃ h2, load_controlnet_from_unet self h1 = (h2, Ok (zp, fr)) ∧
        ∀ key this, (key, this) ∈ state_dict (controlnet self) →
          deref h2 this = deref h1 this.
Proof.
  intros Hwf Hrun.
  pose proof (facade_wf_bootstrap self h h1 zp fr Hwf Hrun) as Hwf1.
  pose proof (load_controlnet_from_unet_ok self h h1 zp fr Hwf Hrun)
    as (Hframe & Hres & Hzp & Hfr).
  assert (is_ok (load_controlnet_from_unet self h1).2 = true) as Hok.
  { apply load_controlnet_from_unet_is_ok; [done|].
    apply (load_controlnet_from_unet_is_ok self h Hwf). by rewrite Hrun. }
  destruct (load_controlnet_from_unet self h1) as [h2 [[zp2 fr2]|e]] eqn:Hrun2; [|done].
  pose proof (load_controlnet_from_unet_ok self h1 h2 zp2 fr2 Hwf1 Hrun2)
    as (_ & Hres2 & Hzp2 & Hfr2).
  assert (zp2 = zp) as -> by (apply leibniz_equiv; intros k; by rewrite Hzp, Hzp2).
  assert (fr2 = fr) as -> by (apply leibniz_equiv; intros k; by rewrite Hfr, Hfr2).
  exists h2. split; [done|]. intros key this Hin.
  assert (∀ tg, assoc key (state_dict (unet self)) = Some tg → deref h1 tg = deref h tg)
    as Hunet.
  { intros tg Ha%assoc_elem_of.
    assert (t_loc tg ∈ owned (unet self)) as Hp
      by apply (list_elem_of_fmap_2 (λ kp : string * tensor, t_loc kp.2) _ _ Ha).
    apply facade_wf_controlnet in Hwf as (_ & _ & _ & Hu & Hdis).
    unfold deref, read. rewrite Hframe; [done| |by apply Hdis].
    by apply (proj1 (Forall_forall _ _) Hu (key, tg)). }
  destruct (Hres2 key this Hin)
    as [tg Ha2 Hs2 Hv2|tg oc2 n2 d2 hh2 w2 zs2 Ha2 Hne2 Ht2 Hs2 Hz2 Hcat2|Ha2 Hv2];
    [| |done];
    destruct (Hres key this Hin)
      as [tg1 Ha1 Hs1 Hv1|tg1 oc n d hh w zs Ha1 Hne1 Ht1 Hs1 Hz1 Hcat1|Ha1 Hv1];
    try congruence.
  - assert (tg1 = tg) as -> by congruence. by rewrite Hv2, Hv1, Hunet.
  - assert (tg1 = tg) as -> by congruence.
    rewrite Ht2 in Ht1. injection Ht1 as <- <- <- <-.
    rewrite Hs2 in Hs1. injection Hs1 as Hd. assert (d = d2) as -> by lia.
    rewrite Hz2 in Hz1. injection Hz1 as <-.
    rewrite (Hunet tg Ha2) in Hcat2. congruence.
Qed.

Lemma bootstrap_idempotent_witness :
  ∃ h1 h2 zp fr,
    load_controlnet_from_unet ex_self ex_store = (h1, Ok (zp, fr)) ∧
    load_controlnet_from_unet ex_self h1 = (h2, Ok (zp, fr)) ∧
    deref h2 (Tensor 4 [1; 3; 1; 2]) = deref h1 (Tensor 4 [1; 3; 1; 2]).
Proof.
  pose proof ex_bootstrap_ok as Hok.
  destruct (load_controlnet_from_unet ex_self ex_store) as [h1 [[zp fr]|e]] eqn:Hrun;
    [clear Hok|discriminate Hok].
  destruct (bootstrap_idempotent ex_self ex_store h1 zp fr ex_facade_wf Hrun)
    as (h2 & Hrun2 & Hval).
  exists h1, h2, zp, fr. split; [reflexivity|]. split; [exact Hrun2|].
  apply (Hval "in.weight"). by_compute.
Defined.

Lemma load_modules_ext {A} (s1 s2 : ControlLDM A) sd modules :
  (∀ name, state_dict (get_module s1 name) = state_dict (get_module s2 name)) →
  ∀ used missing (h : store A),
    load_modules s1 modules sd used missing h = load_modules s2 modules sd used missing h.
Proof.
  intros Hsd. induction modules as [|name rest IH]; intros used missing h; [done|].
  rewrite !load_modules_cons, Hsd.
  destruct (collect_init _ sd _ ∅ used missing h) as [h1 [[init' used1] missing1]].
  assert (load_state_dict (get_module s1 name) init' false h1
          = load_state_dict (get_module s2 name) init' false h1) as ->
    by (unfold load_state_dict; by rewrite Hsd).
  destruct (load_state_dict (get_module s2 name) init' false h1) as [h2 [x|e]]; [|done].
  apply IH.
Qed.

Lemma freeze_idem m : freeze (freeze m) = freeze m.
Proof.
  destruct m as [st tr ta].
  unfold freeze, disable_grad, set_train_attr, eval, call_train. simpl.
  assert (∀ l : list (string * entry),
    prod_map id (λ e, match e_kind e with
                      | KParam => Entry (e_tensor e) KParam false
                      | KBuffer => e
                      end) <$>
      (prod_map id (λ e, match e_kind e with
                         | KParam => Entry (e_tensor e) KParam false
                         | KBuffer => e
                         end) <$> l)
    = prod_map id (λ e, match e_kind e with
                        | KParam => Entry (e_tensor e) KParam false
                        | KBuffer => e
                        end) <$> l) as Hl.
  { intros l. rewrite <-list_fmap_compose. apply list_fmap_ext.
    intros i [k e] _. simpl. unfold prod_map. simpl. f_equal.
    destruct (e_kind e) eqn:Ek; simpl; [done|by rewrite Ek]. }
  destruct ta; simpl; by rewrite Hl.
Qed.

Lemma freeze_modules_idem {A} (self : ControlLDM A) :
  freeze_modules (freeze_modules self [Vae; Clip; Unet]) [Vae; Clip; Unet]
  = freeze_modules self [Vae; Clip; Unet].
Proof.
  destruct self. unfold freeze_modules, set_module. simpl. by rewrite !freeze_idem.
Qed.

(** A returning [load_pretrained_sd] leaves a well-formed store well
    formed. *)
Lemma wf_after_load {A} (self : ControlLDM A) sd (h h1 : store A) used missing :
  facade_wf h self → checkpoint_wf h self sd →
  load_modules self [Unet; Vae; Clip] sd ∅ ∅ h = (h1, Ok (used, missing)) →
  facade_wf h1 self ∧ checkpoint_wf h1 self sd.
Proof.
  intros Hwf Hck Hrun.
  pose proof (facade_modules_wf h self sd Hwf Hck) as Hmwf.
  pose proof (load_modules_ok self sd _ _ _ _ _ _ _ Hrun Hmwf)
    as (Hdom & Hframe & Hent & _).
  pose proof Hwf as (Hnd & Hu & Hv & Hc & Hcn).
  assert (∀ name, module_ok h (get_module self name) →
                  module_ok h1 (get_module self name)) as Hmod.
  { intros name [Hk Hall]. split; [done|].
    apply Forall_forall. intros [key p] Hin.
    pose proof (proj1 (Forall_forall _ _) Hall (key, p) Hin) as Hok. simpl in *.
    specialize (Hent name key p (role_in_modules name) Hin).
    destruct (sd !! target_key (module_map name) key) as [t|] eqn:Ht.
    - destruct Hent as [Hs Hl]. destruct (Hck _ _ Ht) as [Htok _].
      unfold tensor_ok in *. rewrite Hl. unfold read.
      destruct (h !! t_loc t) as [d|]; [|done]. simpl. congruence.
    - unfold tensor_ok in *. by rewrite Hent. }
  split.
  - split; [done|]. split; [apply (Hmod Unet Hu)|]. split; [apply (Hmod Vae Hv)|].
    split; [apply (Hmod Clip Hc)|].
    apply (module_ok_frame h h1 _ Hcn). intros l Hl. apply Hframe.
    + apply facade_wf_controlnet in Hwf as (_ & _ & Hcd & _).
      apply list_elem_of_fmap in Hl as ([k p] & -> & Hin).
      by apply (proj1 (Forall_forall _ _) Hcd (k, p)).
    + intros n _. by eapply facade_wf_owned_controlnet.
  - intros k t Hk. destruct (Hck k t Hk) as [Hok Hno]. split; [|done].
    destruct Hmwf as (_ & _ & _ & Hsep). destruct (Hsep k t Hk) as [Hd Hn].
    unfold tensor_ok in *. by rewrite Hframe.
Qed.

(** X11. Loading the same checkpoint a second time changes nothing: the
    second [load_pretrained_sd] returns the same two sets, the facade and
    every parameter of the three sub-networks stay as the first load left
    them. *)
Theorem load_pretrained_sd_idempotent {A} (self self1 : ControlLDM A)
    (sd : gmap string tensor) (h h1 : store A) (unused missing : gset string) :
  facade_wf h self → checkpoint_wf h self sd →
  load_pretrained_sd self sd h = (h1, self1, Ok (unused, missing)) →
  ∃ h2, load_pretrained_sd self1 sd h1 = (h2, self1, Ok (unused, missing)) ∧
        ∀ name key p, (key, p) ∈ state_dict (get_module self name) →
          deref h2 p = deref h1 p.
Proof.
  intros Hwf Hck (used & Hrun & -> & ->)%load_pretrained_sd_inv.
  pose proof (facade_modules_wf h self sd Hwf Hck) as Hmwf.
  pose proof (load_modules_ok self sd _ _ _ _ _ _ _ Hrun Hmwf)
    as (Hdom & Hframe & Hent & _).
  pose proof (load_modules_sets self sd _ _ _ _ _ _ _ Hrun) as [Hused Hmiss].
  destruct (wf_after_load self sd h h1 used missing Hwf Hck Hrun) as [Hwf1 Hck1].
  pose proof (facade_modules_wf h1 self sd Hwf1 Hck1) as Hmwf1.
  assert (is_ok (load_modules self [Unet; Vae; Clip] sd ∅ ∅ h1).2 = true) as Hok.
  { apply load_modules_is_ok; [done|]. intros name key p t Hn Hin Ht.
    specialize (Hent name key p Hn Hin). rewrite Ht in Hent. by destruct Hent. }
  unfold load_pretrained_sd.
  rewrite (load_modules_ext (freeze_modules self [Vae; Clip; Unet]) self sd
             [Unet; Vae; Clip] (load_pretrained_sd_state_dict self)).
  destruct (load_modules self [Unet; Vae; Clip] sd ∅ ∅ h1) as [h2 [[used2 missing2]|e]]
    eqn:Hrun2; [|done].
  pose proof (load_modules_ok self sd _ _ _ _ _ _ _ Hrun2 Hmwf1)
    as (_ & _ & Hent2 & _).
  pose proof (load_modules_sets self sd _ _ _ _ _ _ _ Hrun2) as [Hused2 Hmiss2].
  assert (used2 = used) as -> by (apply leibniz_equiv; intros k; by rewrite Hused, Hused2).
  assert (missing2 = missing) as ->
    by (apply leibniz_equiv; intros k; by rewrite Hmiss, Hmiss2).
  exists h2. rewrite freeze_modules_idem. split; [done|].
  intros name key p Hin.
  specialize (Hent name key p (role_in_modules name) Hin).
  specialize (Hent2 name key p (role_in_modules name) Hin).
  unfold deref, read.
  destruct (sd !! target_key (module_map name) key) as [t|] eqn:Ht.
  - destruct Hent as [_ ->]. destruct Hent2 as [_ ->]. simpl. f_equal. unfold read.
    destruct Hmwf as (_ & _ & _ & Hsep). destruct (Hsep _ _ Ht) as [Hd Hn].
    by rewrite Hframe.
  - by rewrite Hent2.
Qed.

Lemma load_pretrained_sd_idempotent_witness :
  ∃ h1 h2 self1 unused missing,
    load_pretrained_sd ex_self ex_sd ex_store = (h1, self1, Ok (unused, missing)) ∧
    load_pretrained_sd self1 ex_sd h1 = (h2, self1, Ok (unused, missing)) ∧
    deref h2 (Tensor 1 [2]) = deref h1 (Tensor 1 [2]).
Proof.
  pose proof ex_load_pretrained_sd_ok as Hok.
  destruct (load_pretrained_sd ex_self ex_sd ex_store) as [[h1 self1] [[unused missing]|e]]
    eqn:Hrun; [clear Hok|discriminate Hok].
  destruct (load_pretrained_sd_idempotent ex_self self1 ex_sd ex_store h1 unused missing
              ex_facade_wf ex_checkpoint_wf Hrun) as (h2 & Hrun2 & Hval).
  exists h1, h2, self1, unused, missing. split; [reflexivity|]. split; [exact Hrun2|].
  apply (Hval Unet "time.bias"). by_compute.
Defined.

(** ** The forward pass *)

Lemma scale_control_lookup {A} `{Scalar A} (control : list (tval A)) (scales : list A) i :
  scale_control control scales !! i =
    c ← control !! i; s ← scales !! i; Some (tmul c s).
Proof.
  unfold scale_control. rewrite lookup_zip_with.
  destruct (control !! i); simpl; [|done]. by destruct (scales !! i).
Qed.

(** X12. [forward] hands the denoiser the control tensors scaled tap by
    tap: as many as the control branch returned when there are at least as
    many scales (13 after [__init__]), each with its shape and its
    elements multiplied by the scale of its position, with
    [only_mid_control] false; the control tensors beyond the last scale are
    dropped.  When the control branch raises, the denoiser is not run. *)
Theorem forward_scales_control {A G} `{Scalar A}
    (run_controlnet : tval A → tval A → tval A → tval A → st G (list (tval A)))
    (run_unet : tval A → tval A → tval A → list (tval A) → bool → st G (tval A))
    (control_scales : list A) (x_noisy t : tval A) (cond : condition A) (g : G) :
  match run_controlnet x_noisy (c_img cond) t (c_txt cond) g with
  | (g1, Ok control) =>
      ∃ scaled,
        forward run_controlnet run_unet control_scales x_noisy t cond g
          = run_unet x_noisy t (c_txt cond) scaled false g1 ∧
        length scaled = length control `min` length control_scales ∧
        (∀ i c s, control !! i = Some c → control_scales !! i = Some s →
           ∃ c', scaled !! i = Some c' ∧ shape c' = shape c ∧
                 data c' = (λ v, s_mul v s) <$> data c) ∧
        (∀ i, (length control_scales ≤ i)%nat → scaled !! i = None)
  | (g1, Raise e) =>
      forward run_controlnet run_unet control_scales x_noisy t cond g = (g1, Raise e)
  end.
Proof.
  unfold forward, mbind, st_bind.
  destruct (run_controlnet x_noisy (c_img cond) t (c_txt cond) g) as [g1 [control|e]];
    [|done].
  exists (scale_control control control_scales). split; [done|]. split; [|split].
  - unfold scale_control. apply length_zip_with.
  - intros i c s Hc Hs. exists (tmul c s). rewrite scale_control_lookup, Hc, Hs. done.
  - intros i Hi. rewrite scale_control_lookup.
    rewrite (proj2 (lookup_ge_None control_scales i) Hi).
    by destruct (control !! i).
Qed.

(** ** The two loaders in sequence *)

Lemma load_controlnet_from_unet_ext {A} `{Scalar A} (s1 s2 : ControlLDM A) (h : store A) :
  state_dict (unet s1) = state_dict (unet s2) → controlnet s1 = controlnet s2 →
  load_controlnet_from_unet s1 h = load_controlnet_from_unet s2 h.
Proof. intros Hu Hc. unfold load_controlnet_from_unet. by rewrite Hu, Hc. Qed.

(** X13. Bootstrapping after loading the pretrained checkpoint hands the
    pretrained weights on: a key of the control branch that the denoiser
    declares with the same shape, and whose denoiser key is in the
    checkpoint, ends up with the checkpoint's value. *)
Theorem bootstrap_inherits_checkpoint {A} `{Scalar A} (self self1 : ControlLDM A)
    (sd : gmap string tensor) (h h1 h2 : store A)
    (unused missing zp fr : gset string) (key : string) (this target t : tensor) :
  facade_wf h self → checkpoint_wf h self sd →
  load_pretrained_sd self sd h = (h1, self1, Ok (unused, missing)) →
  load_controlnet_from_unet self1 h1 = (h2, Ok (zp, fr)) →
  (key, this) ∈ state_dict (controlnet self) →
  assoc key (state_dict (unet self)) = Some target →
  t_shape this = t_shape target →
  sd !! target_key (module_map Unet) key = Some t →
  deref h2 this = deref h t.
Proof.
  intros Hwf Hck (used & Hrun & -> & ->)%load_pretrained_sd_inv Hboot Hin Ha Hs Ht.
  pose proof (facade_modules_wf h self sd Hwf Hck) as Hmwf.
  pose proof (load_modules_ok self sd _ _ _ _ _ _ _ Hrun Hmwf) as (_ & _ & Hent & _).
  destruct (wf_after_load self sd h h1 used missing Hwf Hck Hrun) as [Hwf1 _].
  rewrite (load_controlnet_from_unet_ext _ self h1
             (load_pretrained_sd_state_dict self Unet) eq_refl) in Hboot.
  pose proof (load_controlnet_from_unet_ok self h1 h2 zp fr Hwf1 Hboot) as (_ & Hres & _).
  specialize (Hent Unet key target (role_in_modules Unet) (assoc_elem_of _ _ _ Ha)).
  rewrite Ht in Hent. destruct Hent as [Hst Hl].
  destruct (Hres key this Hin) as [tg Ha' _ Hv|tg oc n d hh w zs Ha' Hne|Ha' _];
    [|congruence..].
  assert (tg = target) as -> by congruence.
  rewrite Hv. unfold deref, read. by rewrite Hl, Hst.
Qed.

Lemma ex_load_then_bootstrap_ok :
  is_ok (load_controlnet_from_unet
           (load_pretrained_sd ex_self ex_sd ex_store).1.2
           (load_pretrained_sd ex_self ex_sd ex_store).1.1).2 = true.
Proof. vm_compute. reflexivity. Qed.

Lemma bootstrap_inherits_checkpoint_witness :
  ∃ h1 self1 unused missing h2 zp fr,
    load_pretrained_sd ex_self ex_sd ex_store = (h1, self1, Ok (unused, missing)) ∧
    load_controlnet_from_unet self1 h1 = (h2, Ok (zp, fr)) ∧
    deref h2 (Tensor 3 [2]) = TVal [2] [b32_of_Z 80; b32_of_Z 81].
Proof.
  pose proof ex_load_pretrained_sd_ok as Hok. pose proof ex_load_then_bootstrap_ok as Hok2.
  destruct (load_pretrained_sd ex_self ex_sd ex_store) as [[h1 self1] [[unused missing]|e]]
    eqn:Hrun; [clear Hok|discriminate Hok].
  simpl in Hok2.
  destruct (load_controlnet_from_unet self1 h1) as [h2 [[zp fr]|e]] eqn:Hboot;
    [clear Hok2|discriminate Hok2].
  exists h1, self1, unused, missing, h2, zp, fr.
  split; [reflexivity|]. split; [exact Hboot|].
  rewrite (bootstrap_inherits_checkpoint ex_self self1 ex_sd ex_store h1 h2
             unused missing zp fr "time.bias" (Tensor 3 [2]) (Tensor 1 [2]) (Tensor 8 [2])
             ex_facade_wf ex_checkpoint_wf Hrun Hboot).
  - reflexivity.
  - by_compute.
  - reflexivity.
  - reflexivity.
  - reflexivity.
Defined.

(** ** Calling [train] on a frozen sub-network *)

(** X14. After [load_pretrained_sd] has returned, [train(mode)] with one
    argument and [eval()] on a frozen sub-network return normally, but
    [train()] without an argument raises a [TypeError]: the function stored
    in place of the method takes exactly one positional argument. *)
Theorem frozen_train_arity {A} (self self' : ControlLDM A)
    (sd : gmap string tensor) (h h' : store A) (unused missing : gset string)
    (name : role) :
  load_pretrained_sd self sd h = (h', self', Ok (unused, missing)) →
  (call_train (get_module self' name) []).2 = Raise TypeError ∧
  (∀ mode, (call_train (get_module self' name) [mode]).2 = Ok ()) ∧
  (∀ a b rest, (call_train (get_module self' name) (a :: b :: rest)).2 = Raise TypeError).
Proof.
  intros (used & _ & _ & ->)%load_pretrained_sd_inv.
  rewrite freeze_modules_get.
  assert (m_train (freeze (get_module self name)) = TrainDisabled) as Ht by done.
  unfold call_train. rewrite Ht. done.
Qed.

Lemma frozen_train_arity_witness :
  ∃ h' self' unused missing,
    load_pretrained_sd ex_self ex_sd ex_store = (h', self', Ok (unused, missing)) ∧
    (call_train (unet self') []).2 = Raise TypeError ∧
    (call_train (unet self') [true]).2 = Ok ().
Proof.
  pose proof ex_load_pretrained_sd_ok as Hok.
  destruct (load_pretrained_sd ex_self ex_sd ex_store) as [[h' self'] [[unused missing]|e]]
    eqn:Hrun; [clear Hok|discriminate Hok].
  exists h', self', unused, missing. split; [reflexivity|].
  destruct (frozen_train_arity ex_self self' ex_sd ex_store h' unused missing Unet Hrun)
    as (H0 & H1 & _).
  split; [exact H0|exact (H1 true)].
Defined.

Lemma pad_with_zeros_errors_witness :
  (pad_with_zeros (Tensor 3 [2]) (Tensor 2 [1; 2; 1; 2]) ex_store).2 = Raise IndexError ∧
  (pad_with_zeros (Tensor 6 [1; 2]) (Tensor 2 [1; 2; 1; 2]) ex_store).2 = Raise ValueError ∧
  (pad_with_zeros (Tensor 8 [1; 1; 1; 2]) (Tensor 2 [1; 2; 1; 2]) ex_store).2
  = Raise RuntimeError.
Proof.
  split; [|split].
  - apply (proj1 (pad_with_zeros_errors (Tensor 3 [2]) (Tensor 2 [1; 2; 1; 2]) ex_store)).
    left. simpl. lia.
  - apply (proj1 (proj2 (pad_with_zeros_errors (Tensor 6 [1; 2]) (Tensor 2 [1; 2; 1; 2])
                           ex_store))); simpl; lia.
  - apply (proj2 (proj2 (pad_with_zeros_errors (Tensor 8 [1; 1; 1; 2])
                           (Tensor 2 [1; 2; 1; 2]) ex_store)));
      [reflexivity|simpl; lia|].
    intros (oc & n & d & hh & w & Ht & Hs). simpl in Ht, Hs.
    assert (n = 2) as -> by congruence. assert (1 = 2 + d) as Hd by congruence. lia.
Defined.
